(** * Training glue of the GAN/RNN time-series imputation project

    A shallow embedding of [train.py]: the batch preparation
    [process_series], the loss functions of the two adversarial training
    loops, and the three training loops seen as producers of an event trace.

    Numeric conventions.
    - NumPy arrays hold IEEE binary64 values: they are modelled with the
      primitive floats of the system, so NaN and the infinities are the
      real ones and [np.isfinite] / [np.isnan] compute.
    - TensorFlow losses are modelled over the real numbers: what is proved
      about them is algebraic (which tensors enter which formula, in which
      interval a target lies), and rounding is left out.
    - The global NumPy generator is an explicit [RandomState] threaded
      through every call that draws from it. *)

From Stdlib Require Import Floats ZArith Reals Lra Lia Ascii String.
From stdpp Require Import base option list gmap strings.

Set Default Proof Using "Type".

(** ** Exceptions and results *)

Inductive exn :=
| ValueError (msg : string)
| IndexError (msg : string)
| KeyError (key : string)
| FileNotFoundError (path : string)
| OSError (path : string).

Inductive result (A : Type) :=
| Ok (a : A)
| Raise (e : exn).
Arguments Ok {A} a.
Arguments Raise {A} e.

(** ** NumPy *)

Module np.

(** 1-D, 2-D and 3-D arrays of binary64 values. *)
Abbreviation array1 := (list float).
Abbreviation array2 := (list (list float)).
Abbreviation array3 := (list (list (list float))).

Definition isfinite (x : float) : bool := PrimFloat.is_finite x.
Definition isnan (x : float) : bool := PrimFloat.is_nan x.
Definition isinf (x : float) : bool := PrimFloat.is_infinity x.

(** [a[mask]] for a boolean mask of the shape of [a]: the entries of [a]
    at which the mask is true, in order, in a new array.  (The masks of
    this program are always computed from [a] itself.) *)
Fixpoint mask_select {A} (a : list A) (mask : list bool) : list A :=
  match a, mask with
  | x :: a', b :: mask' =>
      if b then x :: mask_select a' mask' else mask_select a' mask'
  | _, _ => []
  end.

(** [a[idx, :]] for an integer index array: one row per index, in a new
    array; an index out of range raises. *)
Fixpoint take_rows {A} (a : list A) (idx : list nat) : result (list A) :=
  match idx with
  | [] => Ok []
  | i :: idx' =>
      match a !! i with
      | None => Raise (IndexError "index out of bounds")
      | Some row =>
          match take_rows a idx' with
          | Ok rows => Ok (row :: rows)
          | Raise e => Raise e
          end
      end
  end.

(** [np.copy]: same values, new buffer. *)
Definition copy {A} (a : A) : A := a.

(** [a[mask] = v] on a 2-D array. *)
Definition putmask (a : array2) (mask : list (list bool)) (v : float) : array2 :=
  zip_with (zip_with (fun x (b : bool) => if b then v else x)) a mask.

(** [np.expand_dims(a, axis = -1)] on a 2-D array. *)
Definition expand_dims (a : array2) : array3 :=
  map (map (fun x => [x])) a.

(** [np.min([a, b])] on two sizes. *)
Definition min (a b : nat) : nat := Nat.min a b.

(** [a.shape[0]]. *)
Definition shape0 {A} (a : list A) : nat := length a.

(** [np.delete(a, i)] on a 1-D array: out of range raises. *)
Definition delete {A} (a : list A) (i : nat) : result (list A) :=
  if i <? length a then Ok (base.delete i a)
  else Raise (IndexError "index out of bounds").

(** The legacy global generator.  Its stream of raw draws is a function
    of the position; [random_interval max] turns one raw draw into a value
    of [0..max] (the library uses masked rejection instead of a remainder:
    same range, the only thing the program relies on). *)
Module random.

Record RandomState := { raw : nat -> nat; pos : nat }.

Definition random_interval (max : nat) (st : RandomState) : nat * RandomState :=
  match max with
  | 0 => (0, st)
  | S _ => (raw st (pos st) mod S max, {| raw := raw st; pos := S (pos st) |})
  end.

Definition swap {A} (x : list A) (i j : nat) : list A :=
  match x !! i, x !! j with
  | Some a, Some b => <[i:=b]> (<[j:=a]> x)
  | _, _ => x
  end.

(** [for i in reversed(range(1, n)): j = random_interval(i); swap(x[i], x[j])] *)
Fixpoint shuffle_raw {A} (i : nat) (x : list A) (st : RandomState)
  : list A * RandomState :=
  match i with
  | 0 => (x, st)
  | S i' =>
      let '(j, st') := random_interval i st in
      shuffle_raw i' (swap x i j) st'
  end.

Definition shuffle {A} (x : list A) (st : RandomState) : list A * RandomState :=
  shuffle_raw (length x - 1) x st.

(** [permutation(n)]: shuffled [arange(n)]. *)
Definition permutation (n : nat) (st : RandomState) : list nat * RandomState :=
  shuffle (seq 0 n) st.

(** [np.random.choice(a, size = size, replace = False)] for an integer
    population [a]: the first [size] entries of [permutation(a)]. *)
Definition choice (a size : nat) (st : RandomState)
  : result (list nat * RandomState) :=
  if (a =? 0) && negb (size =? 0) then
    Raise (ValueError "a must be greater than 0 unless no samples are taken")
  else if a <? size then
    Raise (ValueError "Cannot take a larger sample than population when 'replace=False'")
  else
    let '(p, st') := permutation a st in
    Ok (take size p, st').

(** [np.random.choice(a)] for a 1-D array [a]: one entry, drawn with
    [randint(0, len(a))]; an empty [a] raises. *)
Definition choice1 {A} (a : list A) (st : RandomState)
  : result (A * RandomState) :=
  let '(i, st') := random_interval (length a - 1) st in
  match a !! i with
  | Some x => Ok (x, st')
  | None => Raise (ValueError "'a' cannot be empty unless no samples are taken")
  end.

End random.

End np.

Export np.random.

(** ** Configuration

    [params] is a flat dictionary whose keys are fixed by the program; the
    record has one field per key that [train.py] reads.  The key
    [save_discriminator] is first read after the generator has been saved
    (lines 240 and 372): it is the one key whose absence changes what a run
    leaves behind, so its field says whether the key is there. *)

Record params := {
  len_input : nat;
  batch_size : nat;
  placeholder_value : float;
  n_epochs : nat;
  shuffle : bool;
  learning_rate : float;
  loss_weight : float;
  model_name : string;
  save_discriminator : option bool;
}.

(** [params['save_discriminator']]. *)
Definition getitem_save_discriminator (params : params) : result bool :=
  match save_discriminator params with
  | Some flag => Ok flag
  | None => Raise (KeyError "save_discriminator")
  end.

(** ** Computations on a state that may raise

    [Rand] is for the computations that draw from the NumPy generator. *)

Definition ST (S A : Type) : Type := S -> result (A * S).

Definition ret {S A} (a : A) : ST S A := fun st => Ok (a, st).

Definition bind {S A B} (m : ST S A) (k : A -> ST S B) : ST S B :=
  fun st =>
    match m st with
    | Ok (a, st') => k a st'
    | Raise e => Raise e
    end.

Definition lift {S A} (r : result A) : ST S A :=
  fun st =>
    match r with
    | Ok a => Ok (a, st)
    | Raise e => Raise e
    end.

Definition draw {S A} (f : S -> A * S) : ST S A :=
  fun st => Ok (f st).

Abbreviation Rand := (ST RandomState).

Declare Scope rand_scope.
Delimit Scope rand_scope with rand.
Notation "'let*' x ':=' m 'in' k" := (bind m (fun x => k))
  (at level 10, x name, m at level 100, k at level 200) : rand_scope.

(** ** Batch preparation *)

(** [series[np.isfinite(series)]] (lines 28, 202 and 334). *)
Definition drop_nonfinite (series : np.array1) : np.array1 :=
  np.mask_select series (map np.isfinite series).

(** Modelled from the spec: the windowing utility [tools.RNN_univariate_processing]
    is not part of [train.py]; the spec describes it as slicing a 1-D series
    into overlapping windows of the fixed length [len_input], and leaves the
    policy on a series shorter than one window to it (an uncaught error).
    This instance takes every window, one step apart. *)
Definition sliding_windows (series : np.array1) (len_input : nat)
  : result np.array2 :=
  if length series <? len_input then
    Raise (ValueError "need at least one array to stack")
  else
    Ok (map (fun i => take len_input (drop i series))
            (seq 0 (length series - len_input + 1))).

Section process_series.

(** The two collaborators that [train.py] imports. *)
Variable RNN_univariate_processing : np.array1 -> nat -> result np.array2.
Variable deterioration_apply : np.array2 -> params -> RandomState -> np.array2 * RandomState.

(** Lines 30-31 (and 204-205, 336-337): the row subsample. *)
Definition subsample (series : np.array2) (params : params) : Rand np.array2 :=
  (let* sample := np.random.choice (np.shape0 series)
                    (np.min (np.shape0 series) (batch_size params)) in
   lift (np.take_rows series sample))%rand.

Definition process_series (series : np.array1) (params : params)
  : Rand (np.array3 * np.array3) :=
  (let series := drop_nonfinite series in
   let* series := lift (RNN_univariate_processing series (len_input params)) in
   let* series := subsample series params in
   let deteriorated := np.copy series in
   let* deteriorated := draw (deterioration_apply deteriorated params) in
   let deteriorated :=
     np.putmask deteriorated (map (map np.isnan) deteriorated)
                (placeholder_value params) in
   let series := np.expand_dims series in
   let deteriorated := np.expand_dims deteriorated in
   ret (series, deteriorated))%rand.

End process_series.

(** ** Instances of the collaborators and sample inputs *)

(** Modelled from the spec: the corruption policy [deterioration.apply] is
    not part of [train.py]; the spec describes it as mapping an array and the
    configuration to an array of the same shape with some entries marked
    missing.  This instance marks one position per row, drawn from the
    generator, with NaN. *)
Fixpoint mark_missing_rows (a : np.array2) (st : RandomState)
  : np.array2 * RandomState :=
  match a with
  | [] => ([], st)
  | row :: a' =>
      let '(j, st1) := np.random.random_interval (length row - 1) st in
      let '(rows, st2) := mark_missing_rows a' st1 in
      (<[j:=nan]> row :: rows, st2)
  end.

Definition mark_missing (a : np.array2) (_ : params) (st : RandomState)
  : np.array2 * RandomState :=
  mark_missing_rows a st.

(** A policy that alters entries beyond the binary64 range. *)
Definition overflowing (a : np.array2) (_ : params) (st : RandomState)
  : np.array2 * RandomState :=
  (map (map (fun x => (x * 0x1p1023 * 4)%float)) a, st).

Definition seed0 : RandomState := {| raw := fun n => 7 * n + 3; pos := 0 |}.

Definition small_params : params :=
  {| len_input := 2; batch_size := 2; placeholder_value := 0%float;
     n_epochs := 1; shuffle := true; learning_rate := 0x1p-10%float;
     loss_weight := 0.5%float; model_name := "imputer";
     save_discriminator := Some true |}.

(** ** Batch preparation, in memory

    The same function with its arrays in memory: an array is a reference to
    a buffer together with its dimensions, several arrays may share a buffer
    (a view), and a write through one is seen through the others.  The
    process owns the buffers and the NumPy generator. *)

Module mem.

Record ndarray := { data : nat; dims : list nat }.

Record process := {
  buffers : gmap nat (list float);
  next : nat;
  random_state : RandomState;
}.

Abbreviation Proc := (ST process).

(** A new buffer, at an address never used before. *)
Definition alloc (values : list float) (dims : list nat) : Proc ndarray :=
  fun s =>
    Ok ({| data := next s; dims := dims |},
        {| buffers := <[next s := values]> (buffers s);
           next := S (next s);
           random_state := random_state s |}).

Definition read (a : ndarray) : Proc (list float) :=
  fun s =>
    match buffers s !! data a with
    | Some values => Ok (values, s)
    | None => Raise (ValueError "array without a buffer")
    end.

(** The in-place write. *)
Definition write (a : ndarray) (values : list float) : Proc unit :=
  fun s =>
    Ok (tt, {| buffers := <[data a := values]> (buffers s);
               next := next s;
               random_state := random_state s |}).

(** Run a computation on the generator of the process. *)
Definition rand {A} (m : Rand A) : Proc A :=
  fun s =>
    match m (random_state s) with
    | Ok (a, st) =>
        Ok (a, {| buffers := buffers s; next := next s; random_state := st |})
    | Raise e => Raise e
    end.

(** [a.shape[0]] and the row length of a 2-D array. *)
Definition shape0 (a : ndarray) : nat := hd 0 (dims a).
Definition shape1 (a : ndarray) : nat := hd 0 (tl (dims a)).

(** The rows of a 2-D array, from its buffer in row-major order. *)
Definition rows_of (n L : nat) (values : list float) : np.array2 :=
  map (fun i => take L (drop (i * L) values)) (seq 0 n).

(** [a[np.isfinite(a)]]: a new array. *)
Definition getitem_isfinite (a : ndarray) : Proc ndarray :=
  (let* values := read a in
   let kept := np.mask_select values (map np.isfinite values) in
   alloc kept [length kept])%rand.

(** [a[sample, :]]: a new array. *)
Definition getitem_rows (a : ndarray) (sample : list nat) : Proc ndarray :=
  (let* values := read a in
   let* rows := lift (np.take_rows (rows_of (shape0 a) (shape1 a) values) sample) in
   alloc (concat rows) [length sample; shape1 a])%rand.

(** [np.copy(a)]: a new array. *)
Definition copy (a : ndarray) : Proc ndarray :=
  (let* values := read a in alloc values (dims a))%rand.

(** [a[np.isnan(a)] = v]: written into the buffer of [a]. *)
Definition setitem_isnan (a : ndarray) (v : float) : Proc unit :=
  (let* values := read a in
   write a (map (fun x => if np.isnan x then v else x) values))%rand.

(** [np.expand_dims(a, axis = -1)]: a view of [a]. *)
Definition expand_dims (a : ndarray) : ndarray :=
  {| data := data a; dims := dims a ++ [1] |}.

Section process_series.

Variable RNN_univariate_processing : ndarray -> nat -> Proc ndarray.
Variable deterioration_apply : ndarray -> params -> Proc ndarray.

Definition process_series (series : ndarray) (params : params)
  : Proc (ndarray * ndarray) :=
  (let* series := getitem_isfinite series in
   let* series := RNN_univariate_processing series (len_input params) in
   let* sample := rand (np.random.choice (shape0 series)
                          (np.min (shape0 series) (batch_size params))) in
   let* series := getitem_rows series sample in
   let* deteriorated := copy series in
   let* deteriorated := deterioration_apply deteriorated params in
   let* _ := setitem_isnan deteriorated (placeholder_value params) in
   let series := expand_dims series in
   let deteriorated := expand_dims deteriorated in
   ret (series, deteriorated))%rand.

End process_series.

(** What is asked of the collaborators: the windowing utility writes to no
    buffer that exists when it is called; the corruption policy writes to
    none but that of its argument, and returns its argument or a new array. *)
Definition unchanged (s s' : process) : Prop :=
  next s <= next s' ∧ ∀ l, l < next s -> buffers s' !! l = buffers s !! l.

Definition unchanged_but (l0 : nat) (s s' : process) : Prop :=
  next s <= next s' ∧
  ∀ l, l < next s -> l ≠ l0 -> buffers s' !! l = buffers s !! l.

Definition reads_only (windowing : ndarray -> nat -> Proc ndarray) : Prop :=
  ∀ a L s a' s', windowing a L s = Ok (a', s') -> unchanged s s'.

Definition writes_its_argument (policy : ndarray -> params -> Proc ndarray) : Prop :=
  ∀ a p s a' s', policy a p s = Ok (a', s') ->
    unchanged_but (data a) s s' ∧ (data a' = data a ∨ next s <= data a').

(** Every buffer lies below the allocation pointer. *)
Definition well_formed (s : process) : Prop :=
  ∀ l values, buffers s !! l = Some values -> l < next s.

(** The value of a 2-D array and of its 3-D view in a process. *)
Definition value2 (a : ndarray) (s : process) : option np.array2 :=
  rows_of (shape0 a) (shape1 a) <$> buffers s !! data a.

Definition value3 (a : ndarray) (s : process) : option np.array3 :=
  np.expand_dims <$> value2 a s.

(** The collaborators in memory compute what the collaborators on values
    compute. *)
Definition windowing_refines (windowing : ndarray -> nat -> Proc ndarray)
    (W : np.array1 -> nat -> result np.array2) : Prop :=
  ∀ a L s a' s' values,
    windowing a L s = Ok (a', s') ->
    buffers s !! data a = Some values ->
    ∃ windows,
      W values L = Ok windows ∧
      buffers s' !! data a' = Some (concat windows) ∧
      dims a' = [length windows; L] ∧
      random_state s' = random_state s.

Definition policy_refines (policy : ndarray -> params -> Proc ndarray)
    (P : np.array2 -> params -> RandomState -> np.array2 * RandomState) : Prop :=
  ∀ a p s a' s' rows L,
    policy a p s = Ok (a', s') ->
    buffers s !! data a = Some (concat rows) ->
    dims a = [length rows; L] ->
    Forall (fun row => length row = L) rows ->
    ∃ raw,
      P rows p (random_state s) = (raw, random_state s') ∧
      buffers s' !! data a' = Some (concat raw) ∧
      dims a' = dims a.

(** Instances of the collaborators: windows one step apart in a new array,
    and a policy that marks its argument in place. *)
Definition sliding_windows (a : ndarray) (len_input : nat) : Proc ndarray :=
  (let* values := read a in
   let* windows := lift (sliding_windows values len_input) in
   alloc (concat windows) [length windows; len_input])%rand.

Definition mark_missing (a : ndarray) (_ : params) : Proc ndarray :=
  (let* values := read a in
   let* marked := rand (draw (mark_missing_rows (rows_of (shape0 a) (shape1 a) values))) in
   let* _ := write a (concat marked) in
   ret a)%rand.

Definition fresh_process (series : list float) : process :=
  {| buffers := {[ 0 := series ]}; next := 1; random_state := seed0 |}.

End mem.

(** ** TensorFlow

    Tensors of rank 2 (discriminator scores, shape [(n, 1)]) and of rank 3
    (batches, shape [(n, len_input, 1)]) over the reals. *)

Module tf.

Local Open Scope R_scope.

Abbreviation tensor2 := (list (list R)).
Abbreviation tensor3 := (list (list (list R))).

Definition reduce_mean (l : list R) : R := foldr Rplus 0 l / INR (length l).

Definition zeros_like (x : tensor2) : tensor2 := map (map (fun _ => 0)) x.
Definition ones_like (x : tensor2) : tensor2 := map (map (fun _ => 1)) x.

(** [tf.shape] of a rank-2 tensor. *)
Definition shape (x : tensor2) : nat * nat :=
  (length x, match x with [] => 0%nat | row :: _ => length row end).

(** [tf.keras.losses.MeanAbsoluteError()]: mean of [|y_pred - y_true|]
    over the last axis, then over all that remains. *)
Definition MeanAbsoluteError (y_true y_pred : tensor3) : R :=
  reduce_mean
    (concat (zip_with
               (zip_with (fun ts ps =>
                            reduce_mean (zip_with (fun t p => Rabs (p - t)) ts ps)))
               y_true y_pred)).

(** [tf.keras.losses.BinaryCrossentropy(from_logits = True)]: for a target
    [z] and a logit [x], [max(x, 0) - x * z + log(1 + exp(-|x|))], averaged
    over the last axis, then over the batch. *)
Definition sigmoid_cross_entropy_with_logits (z x : R) : R :=
  Rmax x 0 - x * z + ln (1 + exp (- Rabs x)).

Definition BinaryCrossentropy (y_true y_pred : tensor2) : R :=
  reduce_mean
    (zip_with (fun zs xs =>
                 reduce_mean (zip_with sigmoid_cross_entropy_with_logits zs xs))
              y_true y_pred).

(** [tf.print(label, x, y)]: the line written, as its label and the values
    that follow it. *)
Record printed := { label : string; values : list R }.

(** The global generator of [tf.random]: a stream of raw 32-bit draws. *)
Record Generator := { bits : nat -> Z; counter : nat }.

(** A raw draw becomes a value of [0, 1): its 23 low bits are the mantissa
    of a float of [1, 2), from which 1 is subtracted. *)
Definition uint32_to_float (x : Z) : R :=
  IZR (Z.land x 0x7fffff) / 8388608.

Definition random_uniform1 (minval maxval : R) (g : Generator) : R * Generator :=
  (uint32_to_float (bits g (counter g)) * (maxval - minval) + minval,
   {| bits := bits g; counter := S (counter g) |}).

Fixpoint random_uniform_row (m : nat) (minval maxval : R) (g : Generator)
  : list R * Generator :=
  match m with
  | O => ([], g)
  | S m' =>
      let '(x, g1) := random_uniform1 minval maxval g in
      let '(row, g2) := random_uniform_row m' minval maxval g1 in
      (x :: row, g2)
  end.

Fixpoint random_uniform_rows (n m : nat) (minval maxval : R) (g : Generator)
  : tensor2 * Generator :=
  match n with
  | O => ([], g)
  | S n' =>
      let '(row, g1) := random_uniform_row m minval maxval g in
      let '(rows, g2) := random_uniform_rows n' m minval maxval g1 in
      (row :: rows, g2)
  end.

(** [tf.random.uniform(shape = shape, minval = minval, maxval = maxval)]. *)
Definition random_uniform (shape : nat * nat) (minval maxval : R) (g : Generator)
  : tensor2 * Generator :=
  random_uniform_rows shape.1 shape.2 minval maxval g.

End tf.

(** ** Networks and optimizers

    A network is an opaque function of its trainable variables and its
    input; a gradient tape differentiates a loss, seen as a function of the
    trainable variables, at their current value; an optimizer turns the
    gradient into new variables. *)

Record trainer (W : Type) := {
  gradient : (W -> R) -> W -> W;
  apply_gradients : W -> W -> W;
}.
Arguments gradient {W} _ _ _.
Arguments apply_gradients {W} _ _ _.

(** ** The losses and the training step of [train_GAN] (lines 128-173) *)

Module train_GAN.

Local Open Scope R_scope.

Definition cross_entropy := tf.BinaryCrossentropy.

Definition generator_loss (discriminator_guess_fakes : tf.tensor2) : R :=
  cross_entropy (tf.ones_like discriminator_guess_fakes) discriminator_guess_fakes.

Definition discriminator_loss
    (discriminator_guess_reals discriminator_guess_fakes : tf.tensor2)
    (g : tf.Generator) : R * tf.Generator :=
  let '(targets_fakes, g1) :=
    tf.random_uniform (tf.shape discriminator_guess_fakes) 0.0 0.2 g in
  let loss_fakes := cross_entropy targets_fakes discriminator_guess_fakes in
  let '(targets_reals, g2) :=
    tf.random_uniform (tf.shape discriminator_guess_reals) 0.8 1 g1 in
  let loss_reals := cross_entropy targets_reals discriminator_guess_reals in
  (loss_fakes + loss_reals, g2).

Section train_step.

Context {Wg Wd : Type}.
Variable generator : Wg -> tf.tensor3 -> tf.tensor3.
Variable discriminator : Wd -> tf.tensor3 -> tf.tensor2.
Variable generator_optimizer : trainer Wg.
Variable discriminator_optimizer : trainer Wd.

Definition train_step (wg : Wg) (wd : Wd) (g : tf.Generator)
    (deteriorated real_example : tf.tensor3)
  : (R * R) * (Wg * Wd * tf.Generator) :=
  let generator_imputation wg := generator wg deteriorated in
  let discriminator_guess_fakes wg wd := discriminator wd (generator_imputation wg) in
  let discriminator_guess_reals wd := discriminator wd real_example in
  let generator_current_loss wg wd :=
    generator_loss (discriminator_guess_fakes wg wd) in
  let discriminator_current_loss wg wd :=
    discriminator_loss (discriminator_guess_reals wd)
                       (discriminator_guess_fakes wg wd) g in
  let generator_gradient :=
    gradient generator_optimizer (fun w => generator_current_loss w wd) wg in
  let dicriminator_gradient :=
    gradient discriminator_optimizer
             (fun w => (discriminator_current_loss wg w).1) wd in
  let wg' := apply_gradients generator_optimizer generator_gradient wg in
  let wd' := apply_gradients discriminator_optimizer dicriminator_gradient wd in
  ((generator_current_loss wg wd, (discriminator_current_loss wg wd).1),
   (wg', wd', (discriminator_current_loss wg wd).2)).

End train_step.

End train_GAN.

(** ** The losses and the training step of [train_partial_GAN] (lines 264-305) *)

Module train_partial_GAN.

Local Open Scope R_scope.

Definition cross_entropy := tf.BinaryCrossentropy.
Definition MAE := tf.MeanAbsoluteError.

Definition generator_loss (batch deteriorated : tf.tensor3)
    (discriminator_guess_fakes : tf.tensor2) (w : R) : R :=
  let mae_loss := MAE batch deteriorated in
  let gan_loss :=
    cross_entropy (tf.ones_like discriminator_guess_fakes) discriminator_guess_fakes in
  let generator_loss := mae_loss * w + gan_loss * (1 - w) in
  generator_loss.

(** The loss, and the line that [tf.print] writes on the way (line 283). *)
Definition discriminator_loss
    (discriminator_guess_reals discriminator_guess_fakes : tf.tensor2)
  : R * list tf.printed :=
  let loss_fakes :=
    cross_entropy (tf.zeros_like discriminator_guess_fakes) discriminator_guess_fakes in
  let loss_reals :=
    cross_entropy (tf.ones_like discriminator_guess_reals) discriminator_guess_reals in
  let printed :=
    [{| tf.label := "Discriminator Loss, fakes, reals:";
        tf.values := [loss_fakes; loss_reals] |}] in
  (loss_fakes + loss_reals, printed).

Section train_step.

Context {Wg Wd : Type}.
Variable generator : Wg -> tf.tensor3 -> tf.tensor3.
Variable discriminator : Wd -> tf.tensor3 -> tf.tensor2.
Variable generator_optimizer : trainer Wg.
Variable discriminator_optimizer : trainer Wd.

Definition train_step (wg : Wg) (wd : Wd)
    (batch deteriorated real_example : tf.tensor3) (w : R)
  : (R * R) * (Wg * Wd * list tf.printed) :=
  let generator_imputation wg := generator wg deteriorated in
  let discriminator_guess_fakes wg wd := discriminator wd (generator_imputation wg) in
  let discriminator_guess_reals wd := discriminator wd real_example in
  let generator_current_loss wg wd :=
    generator_loss batch deteriorated (discriminator_guess_fakes wg wd) w in
  let discriminator_current_loss wg wd :=
    discriminator_loss (discriminator_guess_reals wd)
                       (discriminator_guess_fakes wg wd) in
  let generator_gradient :=
    gradient generator_optimizer (fun w => generator_current_loss w wd) wg in
  let dicriminator_gradient :=
    gradient discriminator_optimizer
             (fun w => (discriminator_current_loss wg w).1) wd in
  let wg' := apply_gradients generator_optimizer generator_gradient wg in
  let wd' := apply_gradients discriminator_optimizer dicriminator_gradient wd in
  ((generator_current_loss wg wd, (discriminator_current_loss wg wd).1),
   (wg', wd', (discriminator_current_loss wg wd).2)).

End train_step.

(** The generator loss in the words of the specification, for comparison
    with [generator_loss]: the mean absolute error between the clean batch
    and the generator's reconstruction of the corrupted batch, weighted
    against the adversarial cross-entropy. *)
Definition spec_generator_loss (batch generator_imputation : tf.tensor3)
    (discriminator_guess_fakes : tf.tensor2) (w : R) : R :=
  w * MAE batch generator_imputation
  + (1 - w) * cross_entropy (tf.ones_like discriminator_guess_fakes)
                            discriminator_guess_fakes.

End train_partial_GAN.

(** Two networks with a single trainable variable each: a generator that
    shifts every entry by its bias, and a discriminator that scores every
    example with its bias. *)
Definition bias_generator (w : R) (x : tf.tensor3) : tf.tensor3 :=
  map (map (map (fun v => (v + w)%R))) x.

Definition bias_discriminator (w : R) (x : tf.tensor3) : tf.tensor2 :=
  map (fun _ => [w]) x.

(** ** The training loops

    A loop runs in a world made of the NumPy generator, the networks (their
    trainable variables, opaque here) and the trace of what the run has done
    so far: gradient steps, lines written, models saved.  The file system is
    read-only for the loops, except for the models saved at the end; saving
    a model raises when its path cannot be written. *)

Inductive network := Model | Generator | Discriminator.

(** The lines written: the two lines of a report, whose numbers are left
    out; the line that [tf.print] writes from the discriminator loss of the
    partial-adversarial step (line 283, on the standard error stream); and
    the fixed texts, which hold the argument of [print]. *)
Inductive line :=
| Progress (epoch iteration : nat)
| Losses (epoch iteration : nat)
| DiscriminatorLosses
| Text (s : string).

(** The line feed of the string literals. *)
Definition LF : string := String "010"%char EmptyString.

Inductive event :=
| GradientStep (epoch iteration : nat)
| Printed (l : line)
| Saved (net : network) (path : string).

Record filesystem := {
  getcwd : string;
  directories : gmap string (list string);
  arrays : gmap string np.array1;
  writable : string -> bool;
}.

Definition listdir (fs : filesystem) (path : string) : result (list string) :=
  match directories fs !! path with
  | Some names => Ok names
  | None => Raise (FileNotFoundError path)
  end.

Definition load (fs : filesystem) (path : string) : result np.array1 :=
  match arrays fs !! path with
  | Some a => Ok a
  | None => Raise (FileNotFoundError path)
  end.

(** [if name in files: files.remove(name)]: the first occurrence goes. *)
Fixpoint remove (name : string) (files : list string) : list string :=
  match files with
  | [] => []
  | f :: files' => if String.eqb f name then files' else f :: remove name files'
  end.

Record world (N : Type) := {
  rng : RandomState;
  nets : N;
  trace : list event;
}.
Arguments rng {N} _.
Arguments nets {N} _.
Arguments trace {N} _.

Inductive outcome (N A : Type) :=
| Done (a : A) (w : world N)
| Failed (e : exn) (w : world N).
Arguments Done {N A} a w.
Arguments Failed {N A} e w.

Definition Run (N A : Type) : Type := world N -> outcome N A.

Section run.

Context {N : Type}.

Definition pure {A} (a : A) : Run N A := fun w => Done a w.

Definition and_then {A B} (m : Run N A) (k : A -> Run N B) : Run N B :=
  fun w =>
    match m w with
    | Done a w' => k a w'
    | Failed e w' => Failed e w'
    end.

(** Run a computation on the generator. *)
Definition rand {A} (m : Rand A) : Run N A :=
  fun w =>
    match m (rng w) with
    | Ok (a, st) => Done a {| rng := st; nets := nets w; trace := trace w |}
    | Raise e => Failed e w
    end.

Definition raising {A} (r : result A) : Run N A :=
  fun w =>
    match r with
    | Ok a => Done a w
    | Raise e => Failed e w
    end.

Definition emit (ev : event) : Run N unit :=
  fun w => Done tt {| rng := rng w; nets := nets w; trace := trace w ++ [ev] |}.

Definition update (f : N -> N) : Run N unit :=
  fun w => Done tt {| rng := rng w; nets := f (nets w); trace := trace w |}.

(** [for i in range(...)]. *)
Fixpoint for_each (l : list nat) (body : nat -> Run N unit) : Run N unit :=
  match l with
  | [] => pure tt
  | i :: l' => and_then (body i) (fun _ => for_each l' body)
  end.

(** A loop that rebinds a variable of the enclosing scope at each turn. *)
Fixpoint for_each_with {S} (l : list nat) (s : S) (body : nat -> S -> Run N S)
  : Run N S :=
  match l with
  | [] => pure s
  | i :: l' => and_then (body i s) (fun s' => for_each_with l' s' body)
  end.

End run.

Declare Scope run_scope.
Delimit Scope run_scope with run.
Notation "'let*' x ':=' m 'in' k" := (and_then m (fun x => k))
  (at level 10, x name, m at level 100, k at level 200) : run_scope.
Notation "m ';;' k" := (and_then m (fun _ => k))
  (at level 100, k at level 200, right associativity) : run_scope.

Section training.

Variable fs : filesystem.
Variable RNN_univariate_processing : np.array1 -> nat -> result np.array2.
Variable deterioration_apply : np.array2 -> params -> RandomState -> np.array2 * RandomState.

(** The networks and their training steps are opaque: [train_on_batch]
    (vanilla) and the two [train_step] update the trainable variables; the
    step of the partial-adversarial loop first writes its line. *)
Context {N : Type}.
Variable train_on_batch : N -> np.array3 -> np.array3 -> N.
Variable train_step_GAN : N -> np.array3 -> np.array3 -> N.
Variable train_step_partial_GAN : N -> np.array3 -> np.array3 -> np.array3 -> float -> N.

Local Open Scope run_scope.

Definition training_file (name : string) : string :=
  getcwd fs +:+ "/data_processed/Training/" +:+ name.

Definition validation_file (name : string) : string :=
  getcwd fs +:+ "/data_processed/Validation/" +:+ name.

Definition saved_model (name : string) : string :=
  getcwd fs +:+ "/saved_models/" +:+ name +:+ ".h5".

Definition saved_discriminator (name : string) : string :=
  getcwd fs +:+ "/saved_models/" +:+ name +:+ "_discriminator.h5".

(** [net.save(path)]. *)
Definition save (net : network) (path : string) : Run N unit :=
  if writable fs path then emit (Saved net path)
  else raising (Raise (OSError path)).

(** The list of training (or validation) files: the directory listing
    without the two names that are not data. *)
Definition data_files (dir readme : string) : result (list string) :=
  match listdir fs (getcwd fs +:+ dir) with
  | Raise e => Raise e
  | Ok files =>
      let files :=
        if bool_decide (readme ∈ files) then remove readme files else files in
      let files :=
        if bool_decide (".gitignore" ∈ files) then remove ".gitignore" files
        else files in
      Ok files
  end.

Definition training_files :=
  data_files "/data_processed/Training/" "readme_training.md".
Definition validation_files :=
  data_files "/data_processed/Validation/" "readme_validation.md".

(** [X_files[np.random.choice(n, n, replace = False)]] when shuffling. *)
Definition shuffle_files (params : params) (X_files : list string)
  : Run N (list string) :=
  if shuffle params then
    let* index := rand (np.random.choice (np.shape0 X_files) (np.shape0 X_files)) in
    raising (np.take_rows X_files index)
  else pure X_files.

Definition item (X_files : list string) (iteration : nat) : Run N string :=
  match X_files !! iteration with
  | Some name => pure name
  | None => fun w => Failed (IndexError "index out of bounds") w
  end.

(** Load a validation series and prepare it, as the three reports do. *)
Definition validation_batch (params : params) (V_files : list string)
  : Run N (np.array3 * np.array3) :=
  let* v_file := rand (np.random.choice1 V_files) in
  let* batch := raising (load fs (validation_file v_file)) in
  rand (process_series RNN_univariate_processing deterioration_apply batch params).

(** The second series of real observations of the adversarial loops. *)
Definition real_observations (params : params) (X_files : list string)
    (iteration : nat) : Run N np.array3 :=
  let* others := raising (np.delete X_files iteration) in
  let* name := rand (np.random.choice1 others) in
  let* real_example := raising (load fs (training_file name)) in
  let real_example := drop_nonfinite real_example in
  let* real_example :=
    raising (RNN_univariate_processing real_example (len_input params)) in
  let* real_example := rand (subsample real_example params) in
  pure (np.expand_dims real_example).

Definition train_vanilla_seq2seq (params : params) : Run N unit :=
  let* X_files := raising training_files in
  let* V_files := raising validation_files in
  let* X_files :=
    for_each_with (seq 0 (n_epochs params)) X_files (fun epoch X_files =>
      let* X_files := shuffle_files params X_files in
      for_each (seq 0 (np.shape0 X_files)) (fun iteration =>
        let* name := item X_files iteration in
        let* batch := raising (load fs (training_file name)) in
        let* prepared :=
          rand (process_series RNN_univariate_processing deterioration_apply
                  batch params) in
        update (fun model => train_on_batch model prepared.1 prepared.2) ;;
        emit (GradientStep epoch iteration) ;;
        if iteration mod 100 =? 0 then
          let* prepared := validation_batch params V_files in
          emit (Printed (Progress epoch iteration))
        else pure tt) ;;
      pure X_files) in
  emit (Printed (Text (LF +:+ "Training complete." +:+ LF))) ;;
  save Model (saved_model (model_name params)) ;;
  emit (Printed (Text ("Model saved at:" +:+ LF
                       +:+ saved_model (model_name params)))) ;;
  pure tt.

Definition train_GAN (params : params) : Run N unit :=
  let* X_files := raising training_files in
  let* V_files := raising validation_files in
  let* X_files :=
    for_each_with (seq 0 (n_epochs params)) X_files (fun epoch X_files =>
      let* X_files := shuffle_files params X_files in
      for_each (seq 0 (np.shape0 X_files)) (fun iteration =>
        let* name := item X_files iteration in
        let* batch := raising (load fs (training_file name)) in
        let* prepared :=
          rand (process_series RNN_univariate_processing deterioration_apply
                  batch params) in
        let* real_example := real_observations params X_files iteration in
        update (fun gan => train_step_GAN gan prepared.2 real_example) ;;
        emit (GradientStep epoch iteration) ;;
        if iteration mod 100 =? 0 then
          let* prepared := validation_batch params V_files in
          emit (Printed (Progress epoch iteration)) ;;
          emit (Printed (Losses epoch iteration))
        else pure tt) ;;
      pure X_files) in
  emit (Printed (Text (LF +:+ "Training complete." +:+ LF))) ;;
  save Generator (saved_model (model_name params)) ;;
  emit (Printed (Text ("Generator saved at:" +:+ LF
                       +:+ saved_model (model_name params)))) ;;
  let* flag := raising (getitem_save_discriminator params) in
  if flag then
    save Discriminator (saved_discriminator (model_name params)) ;;
    emit (Printed (Text (LF +:+ "Discriminator saved at:" +:+ LF
                         +:+ saved_discriminator (model_name params))))
  else pure tt.

Definition train_partial_GAN (params : params) : Run N unit :=
  let* X_files := raising training_files in
  let* V_files := raising validation_files in
  let* X_files :=
    for_each_with (seq 0 (n_epochs params)) X_files (fun epoch X_files =>
      let* X_files := shuffle_files params X_files in
      for_each (seq 0 (np.shape0 X_files)) (fun iteration =>
        let* name := item X_files iteration in
        let* batch := raising (load fs (training_file name)) in
        let* prepared :=
          rand (process_series RNN_univariate_processing deterioration_apply
                  batch params) in
        let* real_example := real_observations params X_files iteration in
        emit (Printed DiscriminatorLosses) ;;
        update (fun gan =>
                  train_step_partial_GAN gan prepared.1 prepared.2 real_example
                                         (loss_weight params)) ;;
        emit (GradientStep epoch iteration) ;;
        if iteration mod 100 =? 0 then
          let* prepared := validation_batch params V_files in
          emit (Printed (Progress epoch iteration)) ;;
          emit (Printed (Losses epoch iteration))
        else pure tt) ;;
      pure X_files) in
  emit (Printed (Text (LF +:+ "Training complete." +:+ LF))) ;;
  save Generator (saved_model (model_name params)) ;;
  emit (Printed (Text ("Generator saved at:" +:+ LF
                       +:+ saved_model (model_name params)))) ;;
  let* flag := raising (getitem_save_discriminator params) in
  if flag then
    save Discriminator (saved_discriminator (model_name params)) ;;
    emit (Printed (Text (LF +:+ "Discriminator saved at:" +:+ LF
                         +:+ saved_discriminator (model_name params))))
  else pure tt.

End training.

(** The three loops, under one name. *)
Inductive loop := Vanilla | GAN | PartialGAN.

Definition train {N} (l : loop) (fs : filesystem)
    (windowing : np.array1 -> nat -> result np.array2)
    (policy : np.array2 -> params -> RandomState -> np.array2 * RandomState)
    (train_on_batch : N -> np.array3 -> np.array3 -> N)
    (train_step_GAN : N -> np.array3 -> np.array3 -> N)
    (train_step_partial_GAN : N -> np.array3 -> np.array3 -> np.array3 -> float -> N)
    (params : params) : Run N unit :=
  match l with
  | Vanilla => train_vanilla_seq2seq fs windowing policy train_on_batch params
  | GAN => train_GAN fs windowing policy train_step_GAN params
  | PartialGAN =>
      train_partial_GAN fs windowing policy train_step_partial_GAN params
  end.

(** A project directory with three training series and one validation
    series of 200 values each (the last two missing), next to the two files
    that are not data; a configuration with windows of 24 values and batches
    of 16; networks reduced to a count of their updates. *)
Definition series200 (x : float) : np.array1 := replicate 198 x ++ [nan; nan].

Definition project : filesystem :=
  {| getcwd := "/project";
     directories :=
       {[ "/project/data_processed/Training/" :=
            ["readme_training.md"; "a.npy"; "b.npy"; ".gitignore"; "c.npy"];
          "/project/data_processed/Validation/" :=
            ["v.npy"; "readme_validation.md"] ]};
     arrays :=
       {[ "/project/data_processed/Training/a.npy" := series200 1%float;
          "/project/data_processed/Training/b.npy" := series200 2%float;
          "/project/data_processed/Training/c.npy" := series200 3%float;
          "/project/data_processed/Validation/v.npy" := series200 4%float ]};
     writable := fun _ => true |}.

Definition scenario : params :=
  {| len_input := 24; batch_size := 16; placeholder_value := 0%float;
     n_epochs := 1; shuffle := true; learning_rate := 0x1p-10%float;
     loss_weight := 0.5%float; model_name := "imputer";
     save_discriminator := Some true |}.

Definition count_updates : Type := nat.
Definition counted2 (n : count_updates) (_ _ : np.array3) : count_updates := S n.
Definition counted4 (n : count_updates) (_ _ _ : np.array3) (_ : float)
  : count_updates := S n.

Definition start : world count_updates :=
  {| rng := seed0; nets := 0; trace := [] |}.

Definition run (l : loop) (params : params) : outcome count_updates unit :=
  train l project sliding_windows mark_missing counted2 counted2 counted4
        params start.

(** ** Vocabulary of the statements *)

(** The NaN substitution, entry by entry. *)
Definition fill (v : float) (x : float) : float := if np.isnan x then v else x.

(** Shape [(n, L, K)] of a 3-D array. *)
Definition has_shape3 (a : np.array3) (n L K : nat) : Prop :=
  length a = n ∧
  Forall (fun row => length row = L ∧ Forall (fun cell => length cell = K) row) a.

(** All entries of a 3-D array. *)
Definition entries3 (a : np.array3) : list float := concat (concat a).

Definition all_finite3 (a : np.array3) : Prop :=
  Forall (fun x => np.isfinite x = true) (entries3 a).

Definition no_nan3 (a : np.array3) : Prop :=
  Forall (fun x => np.isnan x = false) (entries3 a).

(** An entry is kept in place when it can be read back at its index. The
    entries concerned are the finite ones and those before a finite one. *)
Definition kept_in_place (series out : np.array1) : Prop :=
  ∀ i x, series !! i = Some x ->
    (np.isfinite x = true ∨
     ∃ j y, i < j ∧ series !! j = Some y ∧ np.isfinite y = true) ->
    out !! i = Some x.

(** The non-finite values of a series are at its trailing edge: none of
    them comes before a finite value. *)
Fixpoint trailing_only (series : np.array1) : bool :=
  match series with
  | [] => true
  | x :: series' =>
      if np.isfinite x then trailing_only series'
      else forallb (fun y => negb (np.isfinite y)) series'
  end.

(** The collaborators keep their contracts. *)
Definition fixed_length_windows
    (windowing : np.array1 -> nat -> result np.array2) : Prop :=
  ∀ series L windows, windowing series L = Ok windows ->
    Forall (fun row => length row = L) windows.

Definition same_shape
    (policy : np.array2 -> params -> RandomState -> np.array2 * RandomState) : Prop :=
  ∀ a p st, Forall2 (fun row row' => length row' = length row) a (policy a p st).1.

(** What a trace says: the iterations of an epoch at which a gradient step
    was taken, those at which a progress report was printed, and the models
    saved. *)
Definition steps_in (epoch : nat) (events : list event) : list nat :=
  flat_map (fun ev => match ev with
                      | GradientStep e i => if e =? epoch then [i] else []
                      | _ => []
                      end) events.

Definition reports_in (epoch : nat) (events : list event) : list nat :=
  flat_map (fun ev => match ev with
                      | Printed (Progress e i) => if e =? epoch then [i] else []
                      | _ => []
                      end) events.

Definition saves (events : list event) : list (network * string) :=
  flat_map (fun ev => match ev with
                      | Saved net path => [(net, path)]
                      | _ => []
                      end) events.

(** The events of one iteration, of one epoch over [n] files, and of the
    end of a run. *)
Definition adversarial (l : loop) : bool :=
  match l with Vanilla => false | _ => true end.

Definition step_events (l : loop) (epoch iteration : nat) : list event :=
  match l with
  | PartialGAN => [Printed DiscriminatorLosses; GradientStep epoch iteration]
  | _ => [GradientStep epoch iteration]
  end.

Definition iteration_events (l : loop) (epoch iteration : nat) : list event :=
  step_events l epoch iteration ++
  (if iteration mod 100 =? 0 then
     Printed (Progress epoch iteration) ::
     (if adversarial l then [Printed (Losses epoch iteration)] else [])
   else []).

Definition epoch_events (l : loop) (n epoch : nat) : list event :=
  flat_map (iteration_events l epoch) (seq 0 n).

Definition closing_events (l : loop) (fs : filesystem) (params : params)
  : list event :=
  let path := saved_model fs (model_name params) in
  let path_d := saved_discriminator fs (model_name params) in
  match l with
  | Vanilla =>
      [Printed (Text (LF +:+ "Training complete." +:+ LF)); Saved Model path;
       Printed (Text ("Model saved at:" +:+ LF +:+ path))]
  | _ =>
      [Printed (Text (LF +:+ "Training complete." +:+ LF)); Saved Generator path;
       Printed (Text ("Generator saved at:" +:+ LF +:+ path))] ++
      (match save_discriminator params with
       | Some true =>
           [Saved Discriminator path_d;
            Printed (Text (LF +:+ "Discriminator saved at:" +:+ LF +:+ path_d))]
       | _ => []
       end)
  end.

(** A computation only adds to the trace, and what it adds when it
    returns [a] satisfies [Q a]. *)
Definition appends {N A} (m : Run N A) (Q : A -> list event -> Prop) : Prop :=
  ∀ w a w', m w = Done a w' -> ∃ added, trace w' = trace w ++ added ∧ Q a added.

(** A computation is quiet when it adds nothing to the trace. *)
Definition quiet {N A} (m : Run N A) : Prop :=
  appends m (fun _ added => added = []).

(** What a computation that returns has done to the networks. *)
Definition moves {N A} (m : Run N A) (R : A -> N -> N -> Prop) : Prop :=
  ∀ w a w', m w = Done a w' -> R a (nets w) (nets w').

(** A computation is still when it returns with the networks as they
    were. *)
Definition still {N A} (m : Run N A) : Prop :=
  moves m (fun _ n n' => n' = n).

(** [applied step k n n']: the networks [n'] result from [n] by exactly
    [k] applications of [step], one after the other. *)
Inductive applied {N} (step : N -> N -> Prop) : nat -> N -> N -> Prop :=
| applied_O n : applied step 0 n n
| applied_S k n n' n'' :
    step n n' -> applied step k n' n'' -> applied step (S k) n n''.

(** One gradient step of a loop: the networks go through its training
    step, on some batches. *)
Definition training_step {N} (l : loop)
    (train_on_batch : N -> np.array3 -> np.array3 -> N)
    (train_step_GAN : N -> np.array3 -> np.array3 -> N)
    (train_step_partial_GAN : N -> np.array3 -> np.array3 -> np.array3 -> float -> N)
    (params : params) (n n' : N) : Prop :=
  match l with
  | Vanilla =>
      ∃ batch deteriorated, n' = train_on_batch n batch deteriorated
  | GAN =>
      ∃ deteriorated real_example,
        n' = train_step_GAN n deteriorated real_example
  | PartialGAN =>
      ∃ batch deteriorated real_example,
        n' = train_step_partial_GAN n batch deteriorated real_example
               (loss_weight params)
  end.

(** ** Vocabulary for runs that may fail *)

(** Both outcomes of a computation only add to the trace: [Qd] is about
    what a returning run added, [Qf] about what a raising run had added. *)
Definition behaves {N A} (m : Run N A)
    (Qd : A -> list event -> Prop) (Qf : exn -> list event -> Prop) : Prop :=
  ∀ w, match m w with
       | Done a w' => ∃ added, trace w' = trace w ++ added ∧ Qd a added
       | Failed e w' => ∃ added, trace w' = trace w ++ added ∧ Qf e added
       end.






Definition project_no_training : filesystem :=
  {| getcwd := "/project";
     directories := {[ "/project/data_processed/Validation/" := ["v.npy"] ]};
     arrays := arrays project;
     writable := fun _ => true |}.

Definition run_on (fs : filesystem) (l : loop) (params : params)
  : outcome count_updates unit :=
  train l fs sliding_windows mark_missing counted2 counted2 counted4
        params start.

(** A tensor of rank 2 is rectangular: its rows have one length. *)
Definition rectangular (x : tf.tensor2) : Prop :=
  Forall (fun row => length row = (tf.shape x).2) x.

(** [log(1 + exp(t))]. *)
Definition softplus (t : R) : R := ln (1 + exp t).

(** A windowing utility slices: every entry of a window is an entry of the
    series it was given. *)
Definition slices (windowing : np.array1 -> nat -> result np.array2) : Prop :=
  ∀ series L windows, windowing series L = Ok windows ->
    ∀ row x, row ∈ windows -> x ∈ row -> x ∈ series.

(** The scores of a discriminator on a batch: a non-empty rectangular
    tensor. *)
Definition scores (x : tf.tensor2) : Prop :=
  x ≠ [] ∧ (tf.shape x).2 ≠ 0 ∧ rectangular x.

Definition tf_seed : tf.Generator :=
  {| tf.bits := fun n => (1000003 * Z.of_nat n + 12345)%Z; tf.counter := 0 |}.

(** ** The loss and the training step of [train_vanilla_seq2seq] (lines 57-66) *)

Module vanilla.

Definition loss := tf.MeanAbsoluteError.

Section train_on_batch.

Context {W : Type}.
Variable model : W -> tf.tensor3 -> tf.tensor3.
Variable optimizer : trainer W.

Definition train_on_batch (w : W) (batch deteriorated : tf.tensor3) : R * W :=
  let current_loss w := loss batch (model w deteriorated) in
  let gradients := gradient optimizer current_loss w in
  (current_loss w, apply_gradients optimizer gradients w).

End train_on_batch.

End vanilla.

(** * Properties *)

(** ** The generator *)

Section random_facts.

Context {A : Type}.
Implicit Types (x : list A) (st : RandomState).

Lemma random_interval_le max st : (random_interval max st).1 <= max.
Proof.
  destruct max as [|m]; simpl; [lia|].
  pose proof (Nat.mod_upper_bound (raw st (pos st)) (S (S m))). lia.
Qed.

Lemma swap_Permutation x i j : np.random.swap x i j ≡ₚ x.
Proof.
  unfold np.random.swap.
  destruct (x !! i) as [a|] eqn:Hi; [|done].
  destruct (x !! j) as [b|] eqn:Hj; [|done].
  by apply Permutation_insert_swap.
Qed.

Lemma shuffle_raw_Permutation i x st : (np.random.shuffle_raw i x st).1 ≡ₚ x.
Proof.
  revert x st. induction i as [|i IH]; intros x st; simpl; [done|].
  destruct (random_interval (S i) st) as [j st1].
  rewrite IH. apply swap_Permutation.
Qed.

Lemma shuffle_Permutation x st : (np.random.shuffle x st).1 ≡ₚ x.
Proof. apply shuffle_raw_Permutation. Qed.

End random_facts.

Lemma permutation_Permutation n st : (np.random.permutation n st).1 ≡ₚ seq 0 n.
Proof. apply shuffle_Permutation. Qed.

(** Sampling without replacement: whenever the requested size does not
    exceed the population, [choice] returns that many pairwise distinct
    indices of the population. *)
Lemma choice_spec a size st :
  size <= a ->
  ∃ sample st',
    np.random.choice a size st = Ok (sample, st') ∧
    length sample = size ∧ NoDup sample ∧ Forall (fun i => i < a) sample.
Proof.
  intros Hle. unfold np.random.choice.
  destruct ((a =? 0) && negb (size =? 0)) eqn:E.
  { apply andb_true_iff in E as [Ha Hs].
    apply Nat.eqb_eq in Ha. apply negb_true_iff, Nat.eqb_neq in Hs. lia. }
  destruct (a <? size) eqn:E2; [apply Nat.ltb_lt in E2; lia|].
  pose proof (permutation_Permutation a st) as Hp.
  destruct (np.random.permutation a st) as [p st1]; simpl in Hp.
  exists (take size p), st1. split; [done|].
  assert (length p = a) as Hlen.
  { rewrite Hp. apply length_seq. }
  split; [rewrite length_take; lia|]. split.
  - apply (sublist_NoDup _ p); [|apply sublist_take].
    rewrite Hp. apply NoDup_seq.
  - apply Forall_forall. intros i Hi.
    apply subseteq_take in Hi. rewrite Hp in Hi.
    apply elem_of_seq in Hi. lia.
Qed.

(** ** Array operations *)

Lemma take_rows_spec {A} (a : list A) idx :
  Forall (fun i => i < length a) idx ->
  ∃ rows, np.take_rows a idx = Ok rows.
Proof.
  induction 1 as [|i idx Hi _ [rows IH]]; simpl; [by eexists|].
  destruct (lookup_lt_is_Some_2 a i Hi) as [row ->].
  rewrite IH. by eexists.
Qed.

Lemma take_rows_Ok {A} (a : list A) idx rows :
  np.take_rows a idx = Ok rows ->
  Forall2 (fun i row => a !! i = Some row) idx rows.
Proof.
  revert rows. induction idx as [|i idx IH]; simpl; intros rows H.
  - injection H as <-. constructor.
  - destruct (a !! i) as [row|] eqn:Hi; [|discriminate].
    destruct (np.take_rows a idx) as [rows'|]; [|discriminate].
    injection H as <-. constructor; auto.
Qed.

Lemma take_rows_length {A} (a : list A) idx rows :
  np.take_rows a idx = Ok rows -> length rows = length idx.
Proof. intros H%take_rows_Ok. symmetry. by eapply Forall2_length. Qed.

Lemma take_rows_elem_of {A} (a : list A) idx rows row :
  np.take_rows a idx = Ok rows -> row ∈ rows -> row ∈ a.
Proof.
  intros H%take_rows_Ok Hin.
  induction H as [|i r idx rows Hi _ IH]; [by apply elem_of_nil in Hin|].
  apply elem_of_cons in Hin as [->|Hin]; [|auto].
  by eapply list_elem_of_lookup_2.
Qed.

Lemma zip_with_map_r {A B C} (f : A -> B -> C) (g : A -> B) (l : list A) :
  zip_with f l (map g l) = map (fun x => f x (g x)) l.
Proof. induction l as [|x l IH]; simpl; by rewrite ?IH. Qed.

Lemma putmask_isnan (a : np.array2) v :
  np.putmask a (map (map np.isnan) a) v = map (map (fill v)) a.
Proof.
  unfold np.putmask. rewrite zip_with_map_r.
  apply map_ext. intros row. apply zip_with_map_r.
Qed.

Lemma isnan_false_cases x :
  np.isnan x = false -> np.isfinite x = true ∨ np.isinf x = true.
Proof.
  unfold np.isnan, np.isfinite, np.isinf, PrimFloat.is_finite. intros ->.
  destruct (PrimFloat.is_infinity x); auto.
Qed.

Lemma isfinite_not_nan x : np.isfinite x = true -> np.isnan x = false.
Proof.
  unfold np.isnan, np.isfinite, PrimFloat.is_finite.
  destruct (PrimFloat.is_nan x); [discriminate|done].
Qed.

Lemma mask_select_map {A} (f : A -> bool) (l : list A) :
  np.mask_select l (map f l) = List.filter f l.
Proof.
  induction l as [|x l IH]; simpl; [done|].
  rewrite IH. by destruct (f x).
Qed.

Lemma drop_nonfinite_cons x series :
  drop_nonfinite (x :: series) =
  if np.isfinite x then x :: drop_nonfinite series else drop_nonfinite series.
Proof. reflexivity. Qed.

Lemma drop_nonfinite_finite series :
  Forall (fun x => np.isfinite x = true) (drop_nonfinite series).
Proof.
  induction series as [|x series IH]; [constructor|].
  rewrite drop_nonfinite_cons.
  destruct (np.isfinite x) eqn:E; [by constructor|done].
Qed.

Lemma drop_nonfinite_none series :
  Forall (fun x => np.isfinite x = false) series -> drop_nonfinite series = [].
Proof.
  induction 1 as [|x series Hx _ IH]; [done|].
  by rewrite drop_nonfinite_cons, Hx.
Qed.

Lemma expand_dims_shape (a : np.array2) n L :
  length a = n -> Forall (fun row => length row = L) a ->
  has_shape3 (np.expand_dims a) n L 1.
Proof.
  intros Hn Hrows. unfold has_shape3, np.expand_dims. split.
  - by rewrite length_map.
  - rewrite Forall_map. eapply Forall_impl; [exact Hrows|].
    intros row Hrow. simpl. rewrite length_map. split; [done|].
    rewrite Forall_map. by apply Forall_forall.
Qed.

Lemma same_shape_rows (rows raw : np.array2) L :
  Forall2 (fun row row' => length row' = length row) rows raw ->
  Forall (fun row => length row = L) rows ->
  Forall (fun row => length row = L) raw.
Proof.
  induction 1 as [|row row' rows raw Hrr _ IH]; [constructor|].
  intros [Hrow Hrows]%Forall_cons_1. constructor; [congruence|auto].
Qed.

(** ** Running the computations *)

Lemma bind_Ok {S A B} (m : ST S A) (k : A -> ST S B) st r :
  bind m k st = Ok r <-> ∃ a st1, m st = Ok (a, st1) ∧ k a st1 = Ok r.
Proof.
  unfold bind. split.
  - destruct (m st) as [[a st1]|e]; [|discriminate]. eauto.
  - intros (a & st1 & -> & H). done.
Qed.

Lemma lift_Ok {S A} (r : result A) (st : S) a st' :
  lift r st = Ok (a, st') <-> r = Ok a ∧ st' = st.
Proof.
  unfold lift. destruct r as [a0|e]; split.
  - intros [= -> ->]. done.
  - intros [[= ->] ->]. done.
  - discriminate.
  - intros [[=] _].
Qed.

(** ** Batch preparation *)

Section process_series_facts.

Variable RNN_univariate_processing : np.array1 -> nat -> result np.array2.
Variable deterioration_apply : np.array2 -> params -> RandomState -> np.array2 * RandomState.

Local Abbreviation prepare :=
  (process_series RNN_univariate_processing deterioration_apply).

(** What a returning call went through. *)
Lemma process_series_Ok series params st b d st' :
  prepare series params st = Ok (b, d, st') <->
  ∃ windows sample st1 rows raw,
    RNN_univariate_processing (drop_nonfinite series) (len_input params) = Ok windows ∧
    np.random.choice (length windows)
      (Nat.min (length windows) (batch_size params)) st = Ok (sample, st1) ∧
    np.take_rows windows sample = Ok rows ∧
    deterioration_apply rows params st1 = (raw, st') ∧
    b = np.expand_dims rows ∧
    d = np.expand_dims (map (map (fill (placeholder_value params))) raw).
Proof.
  unfold process_series, subsample, np.copy, np.shape0, np.min, draw, ret.
  split.
  - intros (windows & st0 & [Hw ->]%lift_Ok & H)%bind_Ok.
    apply bind_Ok in H as (rows & st2 & Hsub & H).
    apply bind_Ok in Hsub as (sample & st1 & Hch & [Hrows ->]%lift_Ok).
    apply bind_Ok in H as (raw & st3 & Hraw & H).
    injection Hraw as Hraw. injection H as <- <- <-.
    exists windows, sample, st1, rows, raw.
    rewrite putmask_isnan. repeat split; done.
  - intros (windows & sample & st1 & rows & raw & Hw & Hch & Hrows & Hraw & -> & ->).
    apply bind_Ok. exists windows, st. split; [by apply lift_Ok|].
    apply bind_Ok. exists rows, st1. split.
    { apply bind_Ok. exists sample, st1. split; [done|]. by apply lift_Ok. }
    apply bind_Ok. exists raw, st'. split; [by rewrite Hraw|].
    by rewrite putmask_isnan.
Qed.

(** Once the windowing utility has returned, the call returns. *)
Lemma process_series_returns series params st windows :
  RNN_univariate_processing (drop_nonfinite series) (len_input params) = Ok windows ->
  ∃ sample st1 rows,
    np.random.choice (length windows)
      (Nat.min (length windows) (batch_size params)) st = Ok (sample, st1) ∧
    length sample = Nat.min (length windows) (batch_size params) ∧
    NoDup sample ∧ Forall (fun i => i < length windows) sample ∧
    np.take_rows windows sample = Ok rows ∧
    ∃ d st', prepare series params st = Ok (np.expand_dims rows, d, st').
Proof.
  intros Hw.
  destruct (choice_spec (length windows)
              (Nat.min (length windows) (batch_size params)) st)
    as (sample & st1 & Hch & Hlen & Hnd & Hin); [lia|].
  destruct (take_rows_spec windows sample Hin) as [rows Hrows].
  exists sample, st1, rows. repeat split; try done.
  destruct (deterioration_apply rows params st1) as [raw st'] eqn:Hraw.
  eexists _, st'. apply process_series_Ok.
  by exists windows, sample, st1, rows, raw.
Qed.

(** C4. The clean and the corrupted batch returned by [process_series]
    have the same number [n] of rows and both have shape
    [(n, len_input, 1)], for a windowing utility that yields windows of
    length [len_input] and a corruption policy that keeps the shape. *)
Theorem process_series_shapes series params st b d st' :
  fixed_length_windows RNN_univariate_processing ->
  same_shape deterioration_apply ->
  prepare series params st = Ok (b, d, st') ->
  ∃ n, has_shape3 b n (len_input params) 1 ∧ has_shape3 d n (len_input params) 1.
Proof.
  intros Hwin Hpol
    (windows & sample & st1 & rows & raw & Hw & _ & Hrows & Hraw & -> & ->)%process_series_Ok.
  assert (Forall (fun row => length row = len_input params) rows) as Hlen.
  { apply Forall_forall. intros row Hrow.
    eapply (proj1 (Forall_forall _ _) (Hwin _ _ _ Hw)), take_rows_elem_of; eauto. }
  pose proof (Hpol rows params st1) as Hsame. rewrite Hraw in Hsame. simpl in Hsame.
  exists (length rows). split.
  - by apply expand_dims_shape.
  - apply expand_dims_shape.
    + rewrite length_map. symmetry. by eapply Forall2_length.
    + rewrite Forall_map. eapply Forall_impl.
      * eapply same_shape_rows; eauto.
      * intros row Hrow. simpl. by rewrite length_map.
Qed.

(** C5. The row subsample has min(number of windows, batch size) rows,
    never more than there are windows, and it is drawn without
    replacement: the selected indices are pairwise distinct and valid, and
    the rows of the clean batch are the windows at these indices. *)
Theorem subsample_without_replacement series params st windows :
  RNN_univariate_processing (drop_nonfinite series) (len_input params) = Ok windows ->
  ∃ sample st1 b d st',
    np.random.choice (np.shape0 windows)
      (np.min (np.shape0 windows) (batch_size params)) st = Ok (sample, st1) ∧
    length sample = Nat.min (length windows) (batch_size params) ∧
    length sample <= length windows ∧
    NoDup sample ∧
    Forall (fun i => i < length windows) sample ∧
    prepare series params st = Ok (b, d, st') ∧
    length b = Nat.min (length windows) (batch_size params) ∧
    Forall2 (fun i row3 => ∃ row, windows !! i = Some row ∧
                                  row3 = map (fun x => [x]) row) sample b.
Proof.
  intros Hw.
  destruct (process_series_returns series params st windows Hw)
    as (sample & st1 & rows & Hch & Hlen & Hnd & Hin & Hrows & d & st' & Hrun).
  exists sample, st1, (np.expand_dims rows), d, st'.
  repeat split; try done.
  - lia.
  - unfold np.expand_dims. rewrite length_map.
    by rewrite (take_rows_length _ _ _ Hrows).
  - apply take_rows_Ok in Hrows. unfold np.expand_dims.
    apply Forall2_fmap_r. eapply Forall2_impl; [exact Hrows|].
    intros i row Hi. by exists row.
Qed.

(** C3 (amended). After the substitution no entry of the corrupted batch
    is NaN, for a placeholder that is finite; an entry of the corrupted
    batch is either finite or an infinity that the corruption policy
    produced, so the batch is finite whenever the policy produced no
    infinity. *)
Theorem corrupted_batch_no_nan series params st b d st' :
  np.isfinite (placeholder_value params) = true ->
  prepare series params st = Ok (b, d, st') ->
  no_nan3 d ∧
  ∃ rows st1 raw,
    b = np.expand_dims rows ∧
    deterioration_apply rows params st1 = (raw, st') ∧
    Forall (fun x => np.isfinite x = true ∨
                     (np.isinf x = true ∧ x ∈ concat raw)) (entries3 d) ∧
    (Forall (fun x => np.isinf x = false) (concat raw) -> all_finite3 d).
Proof.
  intros Hv
    (windows & sample & st1 & rows & raw & _ & _ & _ & Hraw & -> & ->)%process_series_Ok.
  set (v := placeholder_value params) in *.
  assert (entries3 (np.expand_dims (map (map (fill v)) raw))
          = map (fill v) (concat raw)) as Hent.
  { unfold entries3, np.expand_dims. clear Hraw.
    induction raw as [|row raw IH]; simpl; [done|].
    rewrite concat_app, map_app, IH. f_equal.
    clear. induction row as [|x row IH]; simpl; [done|]. by rewrite IH. }
  assert (∀ x, np.isnan (fill v x) = false) as Hnan.
  { intros x. unfold fill. destruct (np.isnan x) eqn:E; [|done].
    by apply isfinite_not_nan. }
  assert (Forall (fun x => np.isfinite x = true ∨
                           (np.isinf x = true ∧ x ∈ concat raw))
                 (map (fill v) (concat raw))) as Hcases.
  { rewrite Forall_map. apply Forall_forall. intros x Hx. simpl.
    unfold fill. destruct (np.isnan x) eqn:E; [by left|].
    destruct (isnan_false_cases x E); auto. }
  split.
  - unfold no_nan3. rewrite Hent, Forall_map. apply Forall_forall. auto.
  - exists rows, st1, raw. repeat split; try done.
    + by rewrite Hent.
    + intros Hinf. unfold all_finite3. rewrite Hent.
      eapply Forall_impl; [exact Hcases|]. intros y [Hy|[Hy Hin]]; [done|].
      rewrite (proj1 (Forall_forall _ _) Hinf y Hin) in Hy. discriminate.
Qed.

End process_series_facts.

(** Facts about the instances. *)

Lemma sliding_windows_fixed_length : fixed_length_windows sliding_windows.
Proof.
  intros series L windows. unfold sliding_windows.
  destruct (length series <? L) eqn:E; [discriminate|].
  apply Nat.ltb_ge in E. intros [= <-].
  rewrite Forall_map. apply Forall_forall. intros i Hi. simpl.
  apply elem_of_seq in Hi. rewrite length_take, length_drop. lia.
Qed.

Lemma mark_missing_same_shape : same_shape mark_missing.
Proof.
  intros a p st. unfold mark_missing. revert st.
  induction a as [|row a IH]; intros st; simpl; [constructor|].
  destruct (random_interval (length row - 1) st) as [j st1].
  specialize (IH st1). destruct (mark_missing_rows a st1) as [rows st2].
  simpl in *. constructor; [apply length_insert|done].
Qed.

Lemma trailing_only_split series :
  trailing_only series = true ->
  ∃ tail, series = drop_nonfinite series ++ tail ∧
          Forall (fun x => np.isfinite x = false) tail.
Proof.
  induction series as [|x series IH]; simpl; intros H.
  - by exists [].
  - rewrite drop_nonfinite_cons. destruct (np.isfinite x) eqn:E.
    + destruct (IH H) as (tail & Heq & Htail).
      exists tail. split; [|done]. simpl. by rewrite <-Heq.
    + assert (Forall (fun y => np.isfinite y = false) series) as Hs.
      { apply Forall_forall. intros y Hy%list_elem_of_In.
        apply (proj1 (forallb_forall _ _) H) in Hy.
        by apply negb_true_iff in Hy. }
      exists (x :: series). rewrite drop_nonfinite_none by done.
      split; [done|]. by constructor.
Qed.

(** C2 (amended). On a series whose non-finite values are all at the
    trailing edge, the finite mask is a right trim: exactly the trailing
    non-finite values are removed.  What is kept holds finite values only,
    as many as the series has; the series is what is kept followed by the
    non-finite values removed; and every finite entry is kept at its
    original position, in the original order. *)
Theorem right_trim_keeps_positions series :
  trailing_only series = true ->
  kept_in_place series (drop_nonfinite series) ∧
  Forall (fun x => np.isfinite x = true) (drop_nonfinite series) ∧
  (∃ tail, series = drop_nonfinite series ++ tail ∧
           Forall (fun x => np.isfinite x = false) tail) ∧
  length (drop_nonfinite series)
  = length (List.filter np.isfinite series).
Proof.
  intros (tail & Heq & Htail)%trailing_only_split.
  split; [|split; [apply drop_nonfinite_finite|split; [by exists tail|]]];
    [|clear; induction series as [|x series IH]; [done|];
      rewrite drop_nonfinite_cons; simpl; destruct (np.isfinite x); simpl; congruence].
  pose proof (drop_nonfinite_finite series) as Hfin.
  set (kept := drop_nonfinite series) in *.
  assert (∀ k z, series !! k = Some z -> np.isfinite z = true -> kept !! k = Some z)
    as Hkeep.
  { intros k z. rewrite Heq at 1. intros Hk Hz.
    apply lookup_app_Some in Hk as [Hk|[_ Hk]]; [done|].
    apply list_elem_of_lookup_2 in Hk.
    rewrite (proj1 (Forall_forall _ _) Htail z Hk) in Hz. discriminate. }
  intros i x Hi [Hx|(j & y & Hij & Hj & Hy)]; [by apply Hkeep|].
  pose proof (Hkeep j y Hj Hy) as Hkj.
  assert (i < length kept) as Hlt.
  { apply lookup_lt_Some in Hkj. lia. }
  rewrite Heq in Hi. by rewrite lookup_app_l in Hi.
Qed.

(** C2, as stated, fails on a series with an interior NaN: the mask drops
    it and the finite entry behind it moves one position to the left. *)
Lemma interior_nan_is_dropped :
  drop_nonfinite [1; nan; 2]%float = [1; 2]%float ∧
  ¬ kept_in_place [1; nan; 2]%float (drop_nonfinite [1; nan; 2]%float).
Proof.
  split; [reflexivity|]. intros H.
  specialize (H 2 2%float eq_refl (or_introl eq_refl)).
  vm_compute in H. discriminate.
Qed.

Lemma right_trim_keeps_positions_witness :
  trailing_only [1; 2; 3; nan; infinity]%float = true ∧
  kept_in_place [1; 2; 3; nan; infinity]%float
                (drop_nonfinite [1; 2; 3; nan; infinity]%float) ∧
  Forall (fun x => np.isfinite x = true)
         (drop_nonfinite [1; 2; 3; nan; infinity]%float) ∧
  length (drop_nonfinite [1; 2; 3; nan; infinity]%float) = 3.
Proof.
  split; [reflexivity|].
  destruct (right_trim_keeps_positions [1; 2; 3; nan; infinity]%float eq_refl)
    as (Hkept & Hfinite & _ & Hlength).
  split; [exact Hkept|]. split; [exact Hfinite|exact Hlength].
Defined.

(** C3, as stated, fails for a corruption policy that produces an
    infinity: only NaN is replaced by the placeholder. *)
Lemma infinity_survives_substitution :
  ∃ st' : RandomState,
    process_series sliding_windows overflowing [1; 2; nan]%float small_params seed0
    = Ok ([[[1]; [2]]]%float, [[[infinity]; [infinity]]]%float, st') ∧
    (∃ x, x ∈ [1; 2; nan]%float ∧ np.isfinite x = true) ∧
    np.isfinite (placeholder_value small_params) = true ∧
    ¬ all_finite3 [[[infinity]; [infinity]]]%float.
Proof.
  eexists. split; [vm_compute; reflexivity|]. split; [|split].
  - exists 1%float. split; [left|reflexivity].
  - reflexivity.
  - intros H. apply Forall_cons_1 in H as [H _]. vm_compute in H. discriminate.
Qed.

Lemma corrupted_batch_no_nan_witness :
  np.isfinite (placeholder_value small_params) = true ∧
  ∃ st' : RandomState,
    process_series sliding_windows mark_missing [1; 2; 3; 4; nan]%float small_params seed0
    = Ok ([[[2]; [3]]; [[3]; [4]]]%float, [[[2]; [0]]; [[0]; [4]]]%float, st') ∧
    no_nan3 [[[2]; [0]]; [[0]; [4]]]%float.
Proof.
  split; [reflexivity|]. eexists. split; [vm_compute; reflexivity|].
  eapply (corrupted_batch_no_nan sliding_windows mark_missing
            [1; 2; 3; 4; nan]%float small_params seed0).
  - reflexivity.
  - vm_compute. reflexivity.
Defined.

Lemma process_series_shapes_witness :
  ∃ st' : RandomState,
    process_series sliding_windows mark_missing [1; 2; 3; 4; nan]%float small_params seed0
    = Ok ([[[2]; [3]]; [[3]; [4]]]%float, [[[2]; [0]]; [[0]; [4]]]%float, st') ∧
    ∃ n, has_shape3 [[[2]; [3]]; [[3]; [4]]]%float n 2 1 ∧
         has_shape3 [[[2]; [0]]; [[0]; [4]]]%float n 2 1.
Proof.
  eexists. split; [vm_compute; reflexivity|].
  eapply (process_series_shapes sliding_windows mark_missing
            [1; 2; 3; 4; nan]%float small_params seed0).
  - apply sliding_windows_fixed_length.
  - apply mark_missing_same_shape.
  - vm_compute. reflexivity.
Defined.

Lemma subsample_without_replacement_witness :
  sliding_windows (drop_nonfinite [1; 2; 3; 4; nan]%float) 2
  = Ok [[1; 2]; [2; 3]; [3; 4]]%float ∧
  ∃ sample st1,
    np.random.choice 3 (Nat.min 3 2) seed0 = Ok (sample, st1) ∧
    length sample = 2 ∧ NoDup sample ∧ Forall (fun i => i < 3) sample.
Proof.
  split; [reflexivity|].
  destruct (subsample_without_replacement sliding_windows mark_missing
              [1; 2; 3; 4; nan]%float small_params seed0
              [[1; 2]; [2; 3]; [3; 4]]%float eq_refl)
    as (sample & st1 & _ & _ & _ & Hch & Hlen & _ & Hnd & Hin & _).
  exists sample, st1. auto.
Defined.

(** ** Losses of the adversarial loops *)

Section loss_facts.

Local Open Scope R_scope.

Lemma uint32_to_float_range x : 0 <= tf.uint32_to_float x < 1.
Proof.
  unfold tf.uint32_to_float.
  assert (0 <= Z.land x 0x7fffff < 8388608)%Z as [Hlo Hhi].
  { change 0x7fffff%Z with (Z.ones 23). rewrite Z.land_ones by lia.
    apply Z.mod_pos_bound. lia. }
  apply IZR_le in Hlo. apply IZR_lt in Hhi. split.
  - apply Rmult_le_pos; lra.
  - apply Rmult_lt_reg_r with 8388608; [lra|].
    unfold Rdiv. rewrite Rmult_assoc, Rinv_l by lra. lra.
Qed.

Lemma random_uniform1_range lo hi g :
  lo <= hi -> lo <= (tf.random_uniform1 lo hi g).1 <= hi.
Proof.
  intros Hle. simpl. pose proof (uint32_to_float_range (tf.bits g (tf.counter g))).
  nra.
Qed.

Lemma random_uniform_row_range m lo hi g :
  lo <= hi ->
  Forall (fun t => lo <= t <= hi) (tf.random_uniform_row m lo hi g).1.
Proof.
  intros Hle. revert g. induction m as [|m IH]; intros g; [constructor|].
  cbn [tf.random_uniform_row].
  pose proof (random_uniform1_range lo hi g Hle) as H1.
  destruct (tf.random_uniform1 lo hi g) as [x g1].
  specialize (IH g1). destruct (tf.random_uniform_row m lo hi g1) as [row g2].
  by constructor.
Qed.

Lemma random_uniform_range shape lo hi g :
  lo <= hi ->
  Forall (Forall (fun t => lo <= t <= hi)) (tf.random_uniform shape lo hi g).1.
Proof.
  intros Hle. unfold tf.random_uniform.
  generalize shape.2 as m. generalize shape.1 as n. intros n m. revert g.
  induction n as [|n IH]; intros g; [constructor|].
  cbn [tf.random_uniform_rows].
  pose proof (random_uniform_row_range m lo hi g Hle) as H1.
  destruct (tf.random_uniform_row m lo hi g) as [row g1].
  specialize (IH g1). destruct (tf.random_uniform_rows n m lo hi g1) as [rows g2].
  by constructor.
Qed.

(** C6. In the discriminator loss of the GAN loop, the targets are the
    two uniform draws, and for every state of the generator every target of
    a real example lies in [0.8, 1.0] and every target of a fake lies in
    [0.0, 0.2]. *)
Theorem soft_labels_in_range reals fakes g :
  ∃ targets_fakes g1 targets_reals g2,
    tf.random_uniform (tf.shape fakes) 0.0 0.2 g = (targets_fakes, g1) ∧
    tf.random_uniform (tf.shape reals) 0.8 1 g1 = (targets_reals, g2) ∧
    train_GAN.discriminator_loss reals fakes g
    = (train_GAN.cross_entropy targets_fakes fakes
       + train_GAN.cross_entropy targets_reals reals, g2) ∧
    Forall (Forall (fun t => 0.8 <= t <= 1.0)) targets_reals ∧
    Forall (Forall (fun t => 0.0 <= t <= 0.2)) targets_fakes.
Proof.
  unfold train_GAN.discriminator_loss.
  pose proof (random_uniform_range (tf.shape fakes) 0.0 0.2 g ltac:(lra)) as Hf.
  destruct (tf.random_uniform (tf.shape fakes) 0.0 0.2 g) as [tfk g1].
  exists tfk, g1. cbv beta iota.
  pose proof (random_uniform_range (tf.shape reals) 0.8 1 g1 ltac:(lra)) as Hr.
  destruct (tf.random_uniform (tf.shape reals) 0.8 1 g1) as [trl g2].
  exists trl, g2.
  split; [done|]. split; [done|]. split; [done|]. split; [|exact Hf].
  eapply Forall_impl; [exact Hr|]. intros row Hrow.
  eapply Forall_impl; [exact Hrow|]. intros t Ht. simpl in Ht. lra.
Qed.

Lemma like_Forall2 (c : R) (x : tf.tensor2) :
  Forall2 (Forall2 (fun t _ => t = c)) (map (map (fun _ => c)) x) x.
Proof.
  apply Forall2_fmap_l, Forall_Forall2_diag, Forall_forall. intros row _.
  apply Forall2_fmap_l, Forall_Forall2_diag, Forall_forall. done.
Qed.

(** C7. The discriminator loss of the partial-adversarial loop is a
    function of the scores alone (it draws nothing), and its targets are
    hard labels: exactly 0 against every fake score and exactly 1 against
    every real score.  The line it writes shows the two cross-entropies
    against these targets. *)
Theorem hard_labels reals fakes :
  ∃ targets_fakes targets_reals,
    (train_partial_GAN.discriminator_loss reals fakes).1
    = train_partial_GAN.cross_entropy targets_fakes fakes
      + train_partial_GAN.cross_entropy targets_reals reals ∧
    Forall2 (Forall2 (fun t _ => t = 0)) targets_fakes fakes ∧
    Forall2 (Forall2 (fun t _ => t = 1)) targets_reals reals ∧
    (train_partial_GAN.discriminator_loss reals fakes).2
    = [{| tf.label := "Discriminator Loss, fakes, reals:";
          tf.values := [train_partial_GAN.cross_entropy targets_fakes fakes;
                        train_partial_GAN.cross_entropy targets_reals reals] |}].
Proof.
  exists (tf.zeros_like fakes), (tf.ones_like reals).
  split; [reflexivity|]. split; [apply like_Forall2|].
  split; [apply like_Forall2|reflexivity].
Qed.

End loss_facts.

Section partial_generator_loss.

Local Open Scope R_scope.

Lemma MAE_singleton (t p : R) :
  tf.MeanAbsoluteError [[[t]]] [[[p]]] = Rabs (p - t).
Proof.
  unfold tf.MeanAbsoluteError, tf.reduce_mean. simpl. field.
Qed.

(** What the training step of the partial-adversarial loop returns as the
    generator loss: the regression term compares the clean batch with the
    corrupted batch it was given, not with the imputation. *)
Lemma train_step_generator_loss {Wg Wd : Type}
    (generator : Wg -> tf.tensor3 -> tf.tensor3)
    (discriminator : Wd -> tf.tensor3 -> tf.tensor2)
    (og : trainer Wg) (od : trainer Wd) wg wd batch deteriorated real_example w :
  (train_partial_GAN.train_step generator discriminator og od
     wg wd batch deteriorated real_example w).1.1
  = w * train_partial_GAN.MAE batch deteriorated
    + (1 - w) * train_partial_GAN.cross_entropy
                  (tf.ones_like (discriminator wd (generator wg deteriorated)))
                  (discriminator wd (generator wg deteriorated)).
Proof.
  unfold train_partial_GAN.train_step, train_partial_GAN.generator_loss. simpl. ring.
Qed.

(** C1, on a corrupted batch that the generator reconstructs perfectly:
    the reconstruction loss of the claim is 0, yet the generator loss of the
    step exceeds the claimed blend by [weight * 1]; at weight 1 it is 1 and
    not the pure reconstruction loss 0. *)
Theorem partial_generator_loss_ignores_imputation :
  ∀ (og od : trainer R),
    let batch := [[[1]]] in
    let deteriorated := [[[0]]] in
    let real_example := [[[1]]] in
    let imputation := bias_generator 1 deteriorated in
    let fakes := bias_discriminator 0 imputation in
    let loss w :=
      (train_partial_GAN.train_step bias_generator bias_discriminator og od
         1 0 batch deteriorated real_example w).1.1 in
    train_partial_GAN.MAE batch imputation = 0 ∧
    loss 0.5 = train_partial_GAN.spec_generator_loss batch imputation fakes 0.5 + 0.5 ∧
    loss 1 = 1 ∧
    train_partial_GAN.spec_generator_loss batch imputation fakes 1 = 0.
Proof.
  intros og od batch deteriorated real_example imputation fakes loss.
  assert (train_partial_GAN.MAE batch imputation = 0) as Hrec.
  { unfold train_partial_GAN.MAE, batch, imputation, deteriorated. simpl.
    rewrite MAE_singleton. replace (0 + 1 - 1) with 0 by ring. apply Rabs_R0. }
  assert (train_partial_GAN.MAE batch deteriorated = 1) as Hcor.
  { unfold train_partial_GAN.MAE, batch, deteriorated.
    rewrite MAE_singleton. rewrite Rabs_left1; lra. }
  unfold loss. rewrite !train_step_generator_loss.
  unfold train_partial_GAN.spec_generator_loss. fold imputation. fold fakes.
  rewrite Hrec, Hcor. repeat split; lra.
Qed.

End partial_generator_loss.

(** ** Traces of the training loops *)

Section appends_rules.

Context {N : Type}.

Lemma appends_pure {A} (a : A) (Q : A -> list event -> Prop) :
  Q a [] -> appends (N:=N) (pure a) Q.
Proof.
  intros HQ w a' w' [= <- <-]. exists []. by rewrite app_nil_r.
Qed.

Lemma appends_and_then {A B} (m : Run N A) (k : A -> Run N B) Q1 Q :
  appends m Q1 ->
  (∀ a added, Q1 a added -> appends (k a) (fun b more => Q b (added ++ more))) ->
  appends (and_then m k) Q.
Proof.
  intros Hm Hk w b w'. unfold and_then.
  destruct (m w) as [a w1|e w1] eqn:E; [|discriminate]. intros Hrun.
  destruct (Hm _ _ _ E) as (added & Ht1 & H1).
  destruct (Hk _ _ H1 _ _ _ Hrun) as (more & Ht2 & H2).
  exists (added ++ more). split; [|done]. by rewrite Ht2, Ht1, app_assoc.
Qed.

Lemma appends_rand {A} (m : Rand A) (Q : A -> list event -> Prop) :
  (∀ st a st', m st = Ok (a, st') -> Q a []) -> appends (N:=N) (rand m) Q.
Proof.
  intros HQ w a w'. unfold rand.
  destruct (m (rng w)) as [[a' st']|e] eqn:E; [|discriminate].
  intros [= <- <-]. exists []. simpl. rewrite app_nil_r. eauto.
Qed.

Lemma appends_raising {A} (r : result A) (Q : A -> list event -> Prop) :
  (∀ a, r = Ok a -> Q a []) -> appends (N:=N) (raising r) Q.
Proof.
  intros HQ w a w'. unfold raising. destruct r as [a'|e]; [|discriminate].
  intros [= <- <-]. exists []. rewrite app_nil_r. eauto.
Qed.

Lemma appends_emit ev (Q : unit -> list event -> Prop) :
  Q tt [ev] -> appends (N:=N) (emit ev) Q.
Proof. intros HQ w [] w' [= <-]. by exists [ev]. Qed.

Lemma appends_update (f : N -> N) (Q : unit -> list event -> Prop) :
  Q tt [] -> appends (update f) Q.
Proof. intros HQ w [] w' [= <-]. exists []. simpl. by rewrite app_nil_r. Qed.

Lemma appends_item (X_files : list string) iteration
    (Q : string -> list event -> Prop) :
  (∀ name, X_files !! iteration = Some name -> Q name []) ->
  appends (N:=N) (item X_files iteration) Q.
Proof.
  intros HQ w a w'. unfold item.
  destruct (X_files !! iteration) as [name|]; [|discriminate].
  intros [= <- <-]. exists []. rewrite app_nil_r. eauto.
Qed.

Lemma appends_for_each (l : list nat) (body : nat -> Run N unit)
    (f : nat -> list event) (Q : unit -> list event -> Prop) :
  (∀ i, i ∈ l -> appends (body i) (fun _ added => added = f i)) ->
  Q tt (flat_map f l) ->
  appends (for_each l body) Q.
Proof.
  revert Q. induction l as [|i l IH]; intros Q Hbody HQ; simpl.
  - by apply appends_pure.
  - eapply appends_and_then.
    + apply Hbody. left.
    + intros _ added ->. apply IH.
      * intros j Hj. apply Hbody. by right.
      * done.
Qed.

Lemma appends_for_each_with {S} (l : list nat) (s : S)
    (body : nat -> S -> Run N S) (I : S -> Prop) (f : nat -> list event)
    (Q : S -> list event -> Prop) :
  I s ->
  (∀ i s, I s -> appends (body i s) (fun s' added => I s' ∧ added = f i)) ->
  (∀ s', I s' -> Q s' (flat_map f l)) ->
  appends (for_each_with l s body) Q.
Proof.
  revert s Q. induction l as [|i l IH]; intros s Q Hs Hbody HQ; simpl.
  - apply appends_pure. auto.
  - eapply appends_and_then.
    + by apply Hbody.
    + intros s' added [Hs' ->]. apply IH; [done|done|].
      intros s'' Hs''. by apply HQ.
Qed.

End appends_rules.

Lemma choice_Ok a size st sample st' :
  np.random.choice a size st = Ok (sample, st') ->
  length sample = size ∧ NoDup sample ∧ Forall (fun i => i < a) sample.
Proof.
  intros H.
  assert (size <= a) as Hle.
  { unfold np.random.choice in H.
    destruct ((a =? 0) && negb (size =? 0)); [discriminate|].
    destruct (a <? size) eqn:E; [discriminate|]. by apply Nat.ltb_ge in E. }
  destruct (choice_spec a size st Hle) as (sample' & st1 & H' & Hspec).
  rewrite H in H'. by injection H' as <- <-.
Qed.

Section quiet_rules.

Context {N : Type}.

Lemma quiet_rand {A} (m : Rand A) : quiet (N:=N) (rand m).
Proof. by apply appends_rand. Qed.

Lemma quiet_raising {A} (r : result A) : quiet (N:=N) (raising r).
Proof. by apply appends_raising. Qed.

Lemma quiet_update (f : N -> N) : quiet (update f).
Proof. by apply appends_update. Qed.

Lemma quiet_item X_files iteration : quiet (N:=N) (item X_files iteration).
Proof. by apply appends_item. Qed.

Lemma quiet_pure {A} (a : A) : quiet (N:=N) (pure a).
Proof. by apply appends_pure. Qed.

Lemma quiet_and_then {A B} (m : Run N A) (k : A -> Run N B) :
  quiet m -> (∀ a, quiet (k a)) -> quiet (and_then m k).
Proof.
  intros Hm Hk. eapply appends_and_then; [exact Hm|].
  intros a added ->. apply Hk.
Qed.

Lemma appends_quiet_then {A B} (m : Run N A) (k : A -> Run N B) Q :
  quiet m -> (∀ a, appends (k a) Q) -> appends (and_then m k) Q.
Proof.
  intros Hm Hk. eapply appends_and_then; [exact Hm|].
  intros a added ->. apply Hk.
Qed.

Lemma appends_emit_then {B} ev (k : unit -> Run N B) Q :
  appends (k tt) (fun b more => Q b (ev :: more)) ->
  appends (and_then (emit ev) k) Q.
Proof.
  intros Hk. eapply appends_and_then.
  - apply appends_emit with (Q := fun _ added => added = [ev]). done.
  - intros [] added ->. exact Hk.
Qed.

End quiet_rules.

Create HintDb quiet.
#[local] Hint Resolve quiet_rand quiet_raising quiet_update quiet_item
  quiet_pure : quiet.

Ltac quiet_steps :=
  repeat match goal with
    | |- appends (and_then (emit _) _) _ => apply appends_emit_then
    | |- appends (and_then _ _) _ =>
        apply appends_quiet_then; [solve [auto with quiet]|intros ?]
    end.

Section training_facts.

Variable fs : filesystem.
Variable RNN_univariate_processing : np.array1 -> nat -> result np.array2.
Variable deterioration_apply : np.array2 -> params -> RandomState -> np.array2 * RandomState.
Context {N : Type}.
Variable train_on_batch : N -> np.array3 -> np.array3 -> N.
Variable train_step_GAN : N -> np.array3 -> np.array3 -> N.
Variable train_step_partial_GAN : N -> np.array3 -> np.array3 -> np.array3 -> float -> N.

Lemma quiet_validation_batch params V_files :
  quiet (N:=N) (validation_batch fs RNN_univariate_processing deterioration_apply
                  params V_files).
Proof.
  unfold validation_batch.
  repeat (apply quiet_and_then; [|intros ?]); auto with quiet.
Qed.

Lemma quiet_real_observations params X_files iteration :
  quiet (N:=N) (real_observations fs RNN_univariate_processing params
                  X_files iteration).
Proof.
  unfold real_observations.
  repeat (apply quiet_and_then; [|intros ?]); auto with quiet.
Qed.

Lemma shuffle_files_length params (X_files : list string) :
  appends (N:=N) (shuffle_files params X_files)
          (fun X_files' added => added = [] ∧ length X_files' = length X_files).
Proof.
  unfold shuffle_files. destruct (shuffle params); [|by apply appends_pure].
  eapply appends_and_then.
  - apply appends_rand with
      (Q := fun index added => added = [] ∧ length index = length X_files).
    intros st index st' H%choice_Ok. split; [done|]. apply H.
  - intros index added [-> Hlen]. apply appends_raising.
    intros rows Hrows%take_rows_length. split; [done|]. congruence.
Qed.

(** A save that returns has saved. *)
Lemma appends_save_then {B} net path (k : unit -> Run N B) Q :
  appends (k tt) (fun b more => Q b (Saved net path :: more)) ->
  appends (and_then (save fs net path) k) Q.
Proof.
  intros Hk. unfold save. destruct (writable fs path).
  - by apply appends_emit_then.
  - eapply appends_and_then with (Q1 := fun _ _ => False).
    + by apply appends_raising.
    + by intros _ added [].
Qed.

Lemma appends_save net path (Q : unit -> list event -> Prop) :
  Q tt [Saved net path] -> appends (N:=N) (save fs net path) Q.
Proof.
  intros HQ. unfold save. destruct (writable fs path).
  - by apply appends_emit.
  - by apply appends_raising.
Qed.

Lemma appends_closing_vanilla params Q :
  Q tt (closing_events Vanilla fs params) ->
  appends (N:=N)
    (emit (Printed (Text (LF +:+ "Training complete." +:+ LF))) ;;
     save fs Model (saved_model fs (model_name params)) ;;
     emit (Printed (Text ("Model saved at:" +:+ LF
                          +:+ saved_model fs (model_name params)))) ;;
     pure tt)%run Q.
Proof.
  intros HQ. apply appends_emit_then, appends_save_then, appends_emit_then.
  by apply appends_pure.
Qed.

Lemma appends_closing_adversarial l params Q :
  adversarial l = true ->
  Q tt (closing_events l fs params) ->
  appends (N:=N)
    (emit (Printed (Text (LF +:+ "Training complete." +:+ LF))) ;;
     save fs Generator (saved_model fs (model_name params)) ;;
     emit (Printed (Text ("Generator saved at:" +:+ LF
                          +:+ saved_model fs (model_name params)))) ;;
     let* flag := raising (getitem_save_discriminator params) in
     if flag then
       save fs Discriminator (saved_discriminator fs (model_name params)) ;;
       emit (Printed (Text (LF +:+ "Discriminator saved at:" +:+ LF
                            +:+ saved_discriminator fs (model_name params))))
     else pure tt)%run Q.
Proof.
  intros Hl HQ.
  assert (Q tt ([Printed (Text (LF +:+ "Training complete." +:+ LF));
                 Saved Generator (saved_model fs (model_name params));
                 Printed (Text ("Generator saved at:" +:+ LF
                                +:+ saved_model fs (model_name params)))] ++
                match save_discriminator params with
                | Some true =>
                    [Saved Discriminator (saved_discriminator fs (model_name params));
                     Printed (Text (LF +:+ "Discriminator saved at:" +:+ LF
                                    +:+ saved_discriminator fs (model_name params)))]
                | _ => []
                end)) as HQ'.
  { by destruct l. }
  clear HQ. apply appends_emit_then, appends_save_then, appends_emit_then.
  eapply appends_and_then.
  - apply appends_raising with
      (Q := fun flag added => added = [] ∧ save_discriminator params = Some flag).
    unfold getitem_save_discriminator. intros flag.
    destruct (save_discriminator params); [|discriminate]. by intros [= ->].
  - intros flag added [-> Hflag]. rewrite Hflag in HQ'. destruct flag.
    + by apply appends_save_then, appends_emit.
    + by apply appends_pure.
Qed.

(** The whole trace of a run that returns: epoch after epoch, one gradient
    step per training file and a report at each iteration divisible by 100,
    then the closing lines and saves. *)
Lemma train_appends l params X_files :
  training_files fs = Ok X_files ->
  appends (N:=N)
    (train l fs RNN_univariate_processing deterioration_apply
       train_on_batch train_step_GAN train_step_partial_GAN params)
    (fun _ added =>
       added = flat_map (epoch_events l (length X_files)) (seq 0 (n_epochs params))
               ++ closing_events l fs params).
Proof.
  intros HX.
  assert (∀ (V : result (list string))
            (body : list string -> list string -> nat -> nat -> Run N unit)
            (k : Run N unit),
    (∀ V X e i,
       appends (body V X e i) (fun _ added => added = iteration_events l e i)) ->
    (∀ Q, Q tt (closing_events l fs params) -> appends k Q) ->
    appends
      (let* X_files := raising (training_files fs) in
       let* V_files := raising V in
       let* X_files :=
         for_each_with (seq 0 (n_epochs params)) X_files (fun epoch X_files =>
           let* X_files := shuffle_files params X_files in
           for_each (seq 0 (np.shape0 X_files)) (body V_files X_files epoch) ;;
           pure X_files) in
       k)%run
      (fun _ added =>
         added = flat_map (epoch_events l (length X_files)) (seq 0 (n_epochs params))
                 ++ closing_events l fs params)) as Hskeleton.
  { intros V body k Hbody Hk.
    eapply appends_and_then.
    { apply appends_raising with (Q := fun X added => added = [] ∧ X = X_files).
      intros X HX'. split; [done|]. congruence. }
    intros X added [-> ->].
    apply appends_quiet_then; [auto with quiet|]. intros V_files.
    eapply appends_and_then.
    - apply appends_for_each_with with
        (I := fun X => length X = length X_files)
        (f := epoch_events l (length X_files))
        (Q := fun _ added =>
                added = flat_map (epoch_events l (length X_files))
                                 (seq 0 (n_epochs params))); [done| |done].
      intros epoch X HlenX.
      eapply appends_and_then; [apply shuffle_files_length|].
      intros X' added [-> HlenX'].
      eapply appends_and_then.
      + apply appends_for_each with
          (f := iteration_events l epoch)
          (Q := fun _ added => added = epoch_events l (length X_files) epoch).
        * intros i _. apply Hbody.
        * unfold epoch_events, np.shape0. congruence.
      + intros _ added ->. apply appends_pure.
        split; [congruence|]. by rewrite app_nil_r.
    - intros _ added ->. apply Hk. done. }
  destruct l; unfold train, train_vanilla_seq2seq, train_GAN, train_partial_GAN.
  - apply (Hskeleton _ (fun V_files X_files epoch iteration => _)).
    + intros V X e i. unfold iteration_events. simpl adversarial. cbv beta.
      quiet_steps.
      destruct (i mod 100 =? 0).
      * apply appends_quiet_then; [apply quiet_validation_batch|]. intros ?.
        by apply appends_emit.
      * by apply appends_pure.
    + intros Q HQ. by apply appends_closing_vanilla.
  - apply (Hskeleton _ (fun V_files X_files epoch iteration => _)).
    + intros V X e i. unfold iteration_events. simpl adversarial. cbv beta.
      quiet_steps.
      apply appends_quiet_then; [apply quiet_real_observations|]. intros ?.
      quiet_steps.
      destruct (i mod 100 =? 0).
      * apply appends_quiet_then; [apply quiet_validation_batch|]. intros ?.
        quiet_steps. by apply appends_emit.
      * by apply appends_pure.
    + intros Q HQ. by apply (appends_closing_adversarial GAN).
  - apply (Hskeleton _ (fun V_files X_files epoch iteration => _)).
    + intros V X e i. unfold iteration_events. simpl adversarial. cbv beta.
      quiet_steps.
      apply appends_quiet_then; [apply quiet_real_observations|]. intros ?.
      quiet_steps.
      destruct (i mod 100 =? 0).
      * apply appends_quiet_then; [apply quiet_validation_batch|]. intros ?.
        quiet_steps. by apply appends_emit.
      * by apply appends_pure.
    + intros Q HQ. by apply (appends_closing_adversarial PartialGAN).
Qed.

End training_facts.

(** Reading a trace. *)

Ltac by_cases_on_tests :=
  repeat match goal with
    | |- context [?x <=? ?y] => destruct (Nat.leb_spec x y)
    | |- context [?x <? ?y] => destruct (Nat.ltb_spec x y)
    | |- context [?x =? ?y] => destruct (Nat.eqb_spec x y)
    end.

Lemma flat_map_select {A} (x : list A) (e a n : nat) :
  flat_map (fun e' => if e' =? e then x else []) (seq a n)
  = if (a <=? e) && (e <? a + n) then x else [].
Proof.
  revert a. induction n as [|n IH]; intros a; simpl.
  - by_cases_on_tests; simpl; done || lia.
  - rewrite IH.
    by_cases_on_tests; simpl; rewrite ?app_nil_r; done || lia.
Qed.

Lemma steps_in_iteration l e e' i :
  steps_in e (iteration_events l e' i) = if e' =? e then [i] else [].
Proof.
  unfold iteration_events, steps_in.
  destruct l, (i mod 100 =? 0); simpl; destruct (e' =? e); reflexivity.
Qed.

Lemma reports_in_iteration l e e' i :
  reports_in e (iteration_events l e' i)
  = if e' =? e then (if i mod 100 =? 0 then [i] else []) else [].
Proof.
  unfold iteration_events, reports_in.
  destruct l, (i mod 100 =? 0); simpl; destruct (e' =? e); reflexivity.
Qed.

Lemma saves_iteration l e i : saves (iteration_events l e i) = [].
Proof.
  unfold iteration_events, saves.
  destruct l, (i mod 100 =? 0); reflexivity.
Qed.

Lemma flat_map_flat_map {A B C} (f : B -> list C) (g : A -> list B) xs :
  flat_map f (flat_map g xs) = flat_map (fun x => flat_map f (g x)) xs.
Proof.
  induction xs as [|x xs IH]; simpl; [done|]. by rewrite flat_map_app, IH.
Qed.

Lemma flat_map_singletons {A} (xs : list A) : flat_map (fun x => [x]) xs = xs.
Proof. induction xs as [|x xs IH]; simpl; by rewrite ?IH. Qed.

Lemma flat_map_nothing {A B} (xs : list A) :
  flat_map (fun _ => @nil B) xs = [].
Proof. by induction xs. Qed.

Lemma flat_map_tested {A} (p : A -> bool) (xs : list A) :
  flat_map (fun x => if p x then [x] else []) xs = List.filter p xs.
Proof.
  induction xs as [|x xs IH]; simpl; [done|]. rewrite IH. by destruct (p x).
Qed.

Lemma steps_in_epoch l n e e' :
  steps_in e (epoch_events l n e') = if e' =? e then seq 0 n else [].
Proof.
  unfold epoch_events, steps_in. rewrite flat_map_flat_map.
  erewrite flat_map_ext; [|intros i; apply steps_in_iteration].
  destruct (e' =? e); [apply flat_map_singletons|apply flat_map_nothing].
Qed.

Lemma reports_in_epoch l n e e' :
  reports_in e (epoch_events l n e')
  = if e' =? e then List.filter (fun i => i mod 100 =? 0) (seq 0 n) else [].
Proof.
  unfold epoch_events, reports_in. rewrite flat_map_flat_map.
  erewrite flat_map_ext; [|intros i; apply reports_in_iteration].
  destruct (e' =? e); [apply flat_map_tested|apply flat_map_nothing].
Qed.

Lemma saves_epoch l n e : saves (epoch_events l n e) = [].
Proof.
  unfold epoch_events, saves. rewrite flat_map_flat_map.
  erewrite flat_map_ext; [|intros i; apply saves_iteration].
  apply flat_map_nothing.
Qed.

Lemma steps_in_epochs l n e epochs :
  steps_in e (flat_map (epoch_events l n) epochs)
  = flat_map (fun e' => if e' =? e then seq 0 n else []) epochs.
Proof.
  unfold steps_in. rewrite flat_map_flat_map.
  apply flat_map_ext. intros e'. apply steps_in_epoch.
Qed.

Lemma reports_in_epochs l n e epochs :
  reports_in e (flat_map (epoch_events l n) epochs)
  = flat_map (fun e' => if e' =? e
                        then List.filter (fun i => i mod 100 =? 0) (seq 0 n)
                        else []) epochs.
Proof.
  unfold reports_in. rewrite flat_map_flat_map.
  apply flat_map_ext. intros e'. apply reports_in_epoch.
Qed.

Lemma saves_epochs l n epochs : saves (flat_map (epoch_events l n) epochs) = [].
Proof.
  unfold saves. rewrite flat_map_flat_map.
  erewrite flat_map_ext; [|intros e; apply saves_epoch].
  apply flat_map_nothing.
Qed.

Lemma closing_events_quiet l fs params e :
  steps_in e (closing_events l fs params) = [] ∧
  reports_in e (closing_events l fs params) = [].
Proof.
  unfold closing_events.
  destruct l; try destruct (save_discriminator params) as [[|]|];
    split; reflexivity.
Qed.

(** ** What the loops do to the networks *)

Section moves_rules.

Context {N : Type}.

Lemma applied_app (step : N -> N -> Prop) j k n n' n'' :
  applied step j n n' -> applied step k n' n'' -> applied step (j + k) n n''.
Proof.
  intros Hj Hk. induction Hj as [n|j n n1 n' Hstep _ IH]; simpl; [done|].
  eapply applied_S; [exact Hstep|]. by apply IH.
Qed.

(** Epochs of [k] steps each, laid end to end. *)
Lemma applied_flat (step : N -> N -> Prop) k e n n' :
  applied (applied step k) e n n' -> applied step (e * k) n n'.
Proof.
  intros H. induction H as [n|e n n1 n' Hepoch _ IH]; simpl; [constructor|].
  eapply applied_app; [exact Hepoch|exact IH].
Qed.

(** A count of the updates, such as the iteration counter of an optimizer,
    goes up by the number of steps applied. *)
Lemma applied_counts (count : N -> nat) (step : N -> N -> Prop) k n n' :
  (∀ n n', step n n' -> count n' = S (count n)) ->
  applied step k n n' -> count n' = count n + k.
Proof.
  intros Hstep H. induction H as [n|k n n1 n' H1 _ IH]; [lia|].
  rewrite IH, (Hstep _ _ H1). lia.
Qed.

Lemma moves_weaken {A} (m : Run N A) (R R' : A -> N -> N -> Prop) :
  moves m R -> (∀ a n n', R a n n' -> R' a n n') -> moves m R'.
Proof. intros Hm HR w a w' Hrun. apply HR, (Hm _ _ _ Hrun). Qed.

Lemma moves_pure {A} (a : A) (R : A -> N -> N -> Prop) :
  (∀ n, R a n n) -> moves (pure a) R.
Proof. intros HR w a' w' [= <- <-]. apply HR. Qed.

Lemma moves_rand {A} (m : Rand A) (R : A -> N -> N -> Prop) :
  (∀ st a st', m st = Ok (a, st') -> ∀ n, R a n n) -> moves (rand m) R.
Proof.
  intros HR w a w'. unfold rand.
  destruct (m (rng w)) as [[a' st']|e] eqn:E; [|discriminate].
  intros [= <- <-]. simpl. eauto.
Qed.

Lemma moves_raising {A} (r : result A) (R : A -> N -> N -> Prop) :
  (∀ a, r = Ok a -> ∀ n, R a n n) -> moves (raising r) R.
Proof.
  intros HR w a w'. unfold raising. destruct r as [a'|e]; [|discriminate].
  intros [= <- <-]. eauto.
Qed.

Lemma moves_after {A B} (m : Run N A) (k : A -> Run N B) (P : A -> Prop)
    (R : B -> N -> N -> Prop) :
  moves m (fun a n n' => n' = n ∧ P a) ->
  (∀ a, P a -> moves (k a) R) ->
  moves (and_then m k) R.
Proof.
  intros Hm Hk w b w'. unfold and_then.
  destruct (m w) as [a w1|e w1] eqn:E; [|discriminate]. intros Hrun.
  destruct (Hm _ _ _ E) as [Hn Ha]. rewrite <-Hn. exact (Hk a Ha _ _ _ Hrun).
Qed.

Lemma still_pure {A} (a : A) : still (N:=N) (pure a).
Proof. by apply moves_pure. Qed.

Lemma still_rand {A} (m : Rand A) : still (N:=N) (rand m).
Proof. by apply moves_rand. Qed.

Lemma still_raising {A} (r : result A) : still (N:=N) (raising r).
Proof. by apply moves_raising. Qed.

Lemma still_item X_files iteration : still (N:=N) (item X_files iteration).
Proof.
  intros w a w'. unfold item.
  destruct (X_files !! iteration); [|discriminate]. by intros [= <- <-].
Qed.

Lemma still_emit ev : still (N:=N) (emit ev).
Proof. by intros w [] w' [= <-]. Qed.

Lemma still_and_then {A B} (m : Run N A) (k : A -> Run N B) :
  still m -> (∀ a, still (k a)) -> still (and_then m k).
Proof.
  intros Hm Hk. apply moves_after with (P := fun _ => True);
    [|intros a _; apply Hk].
  intros w a w' Hrun. split; [exact (Hm _ _ _ Hrun)|done].
Qed.

Lemma still_then {A B} (m : Run N A) (k : A -> Run N B) R :
  still m -> (∀ a, moves (k a) R) -> moves (and_then m k) R.
Proof.
  intros Hm Hk. apply moves_after with (P := fun _ => True);
    [|intros a _; apply Hk].
  intros w a w' Hrun. split; [exact (Hm _ _ _ Hrun)|done].
Qed.

Lemma then_still {A B} (m : Run N A) (k : A -> Run N B) (R : N -> N -> Prop) :
  moves m (fun _ => R) -> (∀ a, still (k a)) -> moves (and_then m k) (fun _ => R).
Proof.
  intros Hm Hk w b w'. unfold and_then.
  destruct (m w) as [a w1|e w1] eqn:E; [|discriminate]. intros Hrun.
  rewrite (Hk a _ _ _ Hrun). exact (Hm _ _ _ E).
Qed.

(** An update followed by what leaves the networks alone. *)
Lemma update_then_still {B} (f : N -> N) (k : unit -> Run N B) (R : N -> N -> Prop) :
  (∀ n, R n (f n)) -> still (k tt) -> moves (and_then (update f) k) (fun _ => R).
Proof.
  intros HR Hk w b w' Hrun. unfold and_then, update in Hrun.
  rewrite (Hk _ _ _ Hrun). apply HR.
Qed.

Lemma moves_for_each (l : list nat) (body : nat -> Run N unit)
    (step : N -> N -> Prop) :
  (∀ i, moves (body i) (fun _ => step)) ->
  moves (for_each l body) (fun _ => applied step (length l)).
Proof.
  intros Hbody. induction l as [|i l IH]; simpl.
  - apply moves_pure. constructor.
  - intros w b w'. unfold and_then.
    destruct (body i w) as [[] w1|e w1] eqn:E; [|discriminate]. intros Hrun.
    eapply applied_S; [exact (Hbody i _ _ _ E)|exact (IH _ _ _ Hrun)].
Qed.

Lemma moves_for_each_with {S} (l : list nat) (s : S)
    (body : nat -> S -> Run N S) (I : S -> Prop) (step : N -> N -> Prop) :
  I s ->
  (∀ i s, I s -> moves (body i s) (fun s' n n' => I s' ∧ step n n')) ->
  moves (for_each_with l s body) (fun _ => applied step (length l)).
Proof.
  intros Hs Hbody. revert s Hs. induction l as [|i l IH]; intros s Hs; simpl.
  - apply moves_pure. constructor.
  - intros w b w'. unfold and_then.
    destruct (body i s w) as [s1 w1|e w1] eqn:E; [|discriminate]. intros Hrun.
    destruct (Hbody i s Hs _ _ _ E) as [Hs1 Hstep].
    eapply applied_S; [exact Hstep|exact (IH s1 Hs1 _ _ _ Hrun)].
Qed.

End moves_rules.

Ltac still_steps :=
  repeat match goal with
    | |- still (and_then _ _) => apply still_and_then; [|intros ?]
    | |- still (pure _) => apply still_pure
    | |- still (rand _) => apply still_rand
    | |- still (raising _) => apply still_raising
    | |- still (item _ _) => apply still_item
    | |- still (emit _) => apply still_emit
    | |- still (save _ _ _) => unfold save
    | |- still (if ?b then _ else _) => destruct b
    | |- still (validation_batch _ _ _ _ _) => unfold validation_batch
    | |- still (real_observations _ _ _ _ _) => unfold real_observations
    end.

Section training_claims.

Variable fs : filesystem.
Variable RNN_univariate_processing : np.array1 -> nat -> result np.array2.
Variable deterioration_apply : np.array2 -> params -> RandomState -> np.array2 * RandomState.
Context {N : Type}.
Variable train_on_batch : N -> np.array3 -> np.array3 -> N.
Variable train_step_GAN : N -> np.array3 -> np.array3 -> N.
Variable train_step_partial_GAN : N -> np.array3 -> np.array3 -> np.array3 -> float -> N.

Local Abbreviation training l params :=
  (train l fs RNN_univariate_processing deterioration_apply
     train_on_batch train_step_GAN train_step_partial_GAN params).

(** A run that returns has listed its training files. *)
Lemma train_Done_files l params w w' :
  training l params w = Done tt w' -> ∃ X_files, training_files fs = Ok X_files.
Proof.
  destruct (training_files fs) as [X_files|e] eqn:E; [by eexists|].
  destruct l; unfold train, train_vanilla_seq2seq, train_GAN, train_partial_GAN,
    and_then, raising; rewrite E; discriminate.
Qed.

Lemma shuffle_files_moves params (X_files : list string) :
  moves (N:=N) (shuffle_files params X_files)
        (fun X_files' n n' => n' = n ∧ length X_files' = length X_files).
Proof.
  unfold shuffle_files. destruct (shuffle params); [|by apply moves_pure].
  apply moves_after with (P := fun index => length index = length X_files).
  - apply moves_rand. intros st index st' H%choice_Ok n. split; [done|]. apply H.
  - intros index Hlen. apply moves_raising.
    intros rows Hrows%take_rows_length n. split; [done|]. congruence.
Qed.

(** The networks of a run that returns: in each epoch they go through one
    training step per training file, and through nothing else. *)
Lemma train_moves l params X_files :
  training_files fs = Ok X_files ->
  moves (training l params)
        (fun _ => applied
                    (applied (training_step l train_on_batch train_step_GAN
                                train_step_partial_GAN params)
                             (length X_files))
                    (n_epochs params)).
Proof.
  intros HX.
  set (step := training_step l train_on_batch train_step_GAN
                 train_step_partial_GAN params).
  assert (∀ (V : result (list string))
            (body : list string -> list string -> nat -> nat -> Run N unit)
            (k : Run N unit),
    (∀ V X e i, moves (body V X e i) (fun _ => step)) ->
    still k ->
    moves
      (let* X_files := raising (training_files fs) in
       let* V_files := raising V in
       let* X_files :=
         for_each_with (seq 0 (n_epochs params)) X_files (fun epoch X_files =>
           let* X_files := shuffle_files params X_files in
           for_each (seq 0 (np.shape0 X_files)) (body V_files X_files epoch) ;;
           pure X_files) in
       k)%run
      (fun _ => applied (applied step (length X_files)) (n_epochs params)))
    as Hskeleton.
  { intros V body k Hbody Hk.
    apply moves_after with (P := fun X => X = X_files).
    { apply moves_raising. intros X HX' n. split; [done|]. congruence. }
    intros X ->. apply still_then; [apply still_raising|]. intros V_files.
    apply then_still; [|intros _; exact Hk].
    apply moves_weaken with
      (R := fun _ => applied (applied step (length X_files))
                             (length (seq 0 (n_epochs params))));
      [|intros a n n' H; rewrite length_seq in H; exact H].
    apply moves_for_each_with with
      (I := fun X => length X = length X_files)
      (step := applied step (length X_files)); [done|].
    intros epoch X HlenX.
    apply moves_after with (P := fun X' => length X' = length X);
      [apply shuffle_files_moves|].
    intros X' HlenX' w b w'. unfold and_then.
    destruct (for_each _ _ w) as [[] w1|e w1] eqn:E; [|discriminate].
    intros [= <- <-]. split; [congruence|].
    apply (moves_for_each _ _ step (Hbody _ _ _)) in E.
    unfold np.shape0 in E. rewrite length_seq in E. congruence. }
  destruct l; unfold train, train_vanilla_seq2seq, train_GAN, train_partial_GAN.
  - apply (Hskeleton _ (fun V_files X_files epoch iteration => _)).
    + intros V X e i. cbv beta.
      do 3 (apply still_then; [solve [still_steps]|intros ?]).
      apply update_then_still; [intros n; unfold step; simpl; eauto|still_steps].
    + still_steps.
  - apply (Hskeleton _ (fun V_files X_files epoch iteration => _)).
    + intros V X e i. cbv beta.
      do 4 (apply still_then; [solve [still_steps]|intros ?]).
      apply update_then_still; [intros n; unfold step; simpl; eauto|still_steps].
    + still_steps.
  - apply (Hskeleton _ (fun V_files X_files epoch iteration => _)).
    + intros V X e i. cbv beta.
      do 5 (apply still_then; [solve [still_steps]|intros ?]).
      apply update_then_still; [intros n; unfold step; simpl; eauto|still_steps].
    + still_steps.
Qed.

(** C8. In each of the three loops, a run that returns has taken, in
    every epoch, one gradient step per training file, and has printed a
    progress report exactly at the iterations of the epoch that are
    divisible by 100, iteration 0 included; over 3 training files an epoch
    takes 3 gradient steps and prints one report, at iteration 0.  The
    gradient steps are those of the networks: at the end of the run they
    have gone, epoch after epoch, through exactly one training step per
    training file. *)
Theorem progress_report_every_100 l params w w' :
  training l params w = Done tt w' ->
  ∃ X_files added,
    training_files fs = Ok X_files ∧
    trace w' = trace w ++ added ∧
    applied (applied (training_step l train_on_batch train_step_GAN
                        train_step_partial_GAN params)
                     (length X_files))
            (n_epochs params) (nets w) (nets w') ∧
    ∀ epoch, epoch < n_epochs params ->
      steps_in epoch added = seq 0 (length X_files) ∧
      reports_in epoch added
      = List.filter (fun i => i mod 100 =? 0) (seq 0 (length X_files)) ∧
      (∀ i, i ∈ reports_in epoch added <-> i < length X_files ∧ i mod 100 = 0) ∧
      (length X_files = 3 ->
       steps_in epoch added = [0; 1; 2] ∧ reports_in epoch added = [0]).
Proof.
  intros Hrun. destruct (train_Done_files _ _ _ _ Hrun) as [X_files HX].
  destruct (train_appends fs RNN_univariate_processing deterioration_apply
              train_on_batch train_step_GAN train_step_partial_GAN
              l params X_files HX _ _ _ Hrun) as (added & Htrace & ->).
  eexists X_files, _. split; [done|]. split; [exact Htrace|].
  split; [exact (train_moves l params X_files HX _ _ _ Hrun)|].
  intros epoch Hepoch.
  assert (steps_in epoch
            (flat_map (epoch_events l (length X_files)) (seq 0 (n_epochs params)) ++
             closing_events l fs params) = seq 0 (length X_files)) as Hsteps.
  { unfold steps_in. rewrite flat_map_app.
    fold (steps_in epoch (closing_events l fs params)).
    rewrite (proj1 (closing_events_quiet _ _ _ _)), app_nil_r.
    fold (steps_in epoch (flat_map (epoch_events l (length X_files))
                                   (seq 0 (n_epochs params)))).
    rewrite steps_in_epochs, flat_map_select.
    by_cases_on_tests; simpl; done || lia. }
  assert (reports_in epoch
            (flat_map (epoch_events l (length X_files)) (seq 0 (n_epochs params)) ++
             closing_events l fs params)
          = List.filter (fun i => i mod 100 =? 0) (seq 0 (length X_files)))
    as Hreports.
  { unfold reports_in. rewrite flat_map_app.
    fold (reports_in epoch (closing_events l fs params)).
    rewrite (proj2 (closing_events_quiet _ _ _ _)), app_nil_r.
    fold (reports_in epoch (flat_map (epoch_events l (length X_files))
                                     (seq 0 (n_epochs params)))).
    rewrite reports_in_epochs, flat_map_select.
    by_cases_on_tests; simpl; done || lia. }
  split; [done|]. split; [done|]. split.
  - intros i. rewrite Hreports, list_elem_of_In, filter_In, in_seq, Nat.eqb_eq. lia.
  - intros H3. rewrite Hsteps, Hreports, H3. split; reflexivity.
Qed.

(** C9. A run that returns has saved, in the vanilla loop, exactly one
    model, at [<cwd>/saved_models/<model_name>.h5]; in each adversarial loop,
    the generator at that path and, if and only if [save_discriminator] is
    set, the discriminator at [<cwd>/saved_models/<model_name>_discriminator.h5];
    nothing else is saved. *)
Theorem models_saved l params w w' :
  training l params w = Done tt w' ->
  ∃ added,
    trace w' = trace w ++ added ∧
    saves added =
      match l with
      | Vanilla =>
          [(Model, getcwd fs +:+ "/saved_models/" +:+ model_name params +:+ ".h5")]
      | _ =>
          (Generator, getcwd fs +:+ "/saved_models/" +:+ model_name params +:+ ".h5") ::
          (match save_discriminator params with
           | Some true =>
               [(Discriminator,
                 getcwd fs +:+ "/saved_models/" +:+ model_name params
                 +:+ "_discriminator.h5")]
           | _ => []
           end)
      end.
Proof.
  intros Hrun. destruct (train_Done_files _ _ _ _ Hrun) as [X_files HX].
  destruct (train_appends fs RNN_univariate_processing deterioration_apply
              train_on_batch train_step_GAN train_step_partial_GAN
              l params X_files HX _ _ _ Hrun) as (added & Htrace & ->).
  eexists. split; [exact Htrace|].
  unfold saves. rewrite flat_map_app.
  fold (saves (flat_map (epoch_events l (length X_files)) (seq 0 (n_epochs params)))).
  rewrite saves_epochs. simpl. unfold closing_events.
  destruct l; try destruct (save_discriminator params) as [[|]|]; reflexivity.
Qed.

End training_claims.

Lemma progress_report_every_100_witness :
  ∃ w', run GAN scenario = Done tt w' ∧
        steps_in 0 (trace w') = [0; 1; 2] ∧ reports_in 0 (trace w') = [0] ∧
        nets w' = 3.
Proof.
  destruct (run GAN scenario) as [[] w'|e w'] eqn:Hrun;
    [|vm_compute in Hrun; discriminate].
  exists w'. split; [done|].
  destruct (progress_report_every_100 project sliding_windows mark_missing
              counted2 counted2 counted4 GAN scenario start w' Hrun)
    as (X_files & added & HX & Htrace & Hnets & Hepoch).
  vm_compute in HX. injection HX as <-.
  simpl in Htrace. rewrite Htrace.
  destruct (Hepoch 0) as (_ & _ & _ & H3); [simpl; lia|].
  destruct (H3 eq_refl) as [Hsteps Hreports].
  split; [exact Hsteps|]. split; [exact Hreports|].
  apply applied_flat in Hnets.
  apply (applied_counts (fun n => n)) in Hnets; [exact Hnets|].
  intros n n' (deteriorated & real_example & ->). reflexivity.
Defined.

Lemma models_saved_witness :
  ∃ w', run Vanilla scenario = Done tt w' ∧
        saves (trace w') = [(Model, "/project/saved_models/imputer.h5")].
Proof.
  destruct (run Vanilla scenario) as [[] w'|e w'] eqn:Hrun;
    [|vm_compute in Hrun; discriminate].
  exists w'. split; [done|].
  destruct (models_saved project sliding_windows mark_missing
              counted2 counted2 counted4 Vanilla scenario start w' Hrun)
    as (added & Htrace & Hsaves).
  simpl in Htrace. rewrite Htrace. exact Hsaves.
Defined.

(** ** Batch preparation, in memory *)

Section mem_facts.

Import mem.

Implicit Types (s : process) (a : ndarray).

Lemma unchanged_refl s : unchanged s s.
Proof. split; [lia|done]. Qed.

Lemma unchanged_trans s1 s2 s3 : unchanged s1 s2 -> unchanged s2 s3 -> unchanged s1 s3.
Proof.
  intros [Hn1 H1] [Hn2 H2]. split; [lia|].
  intros l Hl. rewrite H2 by lia. by apply H1.
Qed.

(** A write to a buffer allocated after [s0] leaves the buffers of [s0]
    as they were. *)
Lemma unchanged_but_new s0 s1 s2 l0 :
  unchanged s0 s1 -> next s0 <= l0 -> unchanged_but l0 s1 s2 -> unchanged s0 s2.
Proof.
  intros [Hn1 H1] Hl0 [Hn2 H2]. split; [lia|].
  intros l Hl. rewrite H2 by lia. by apply H1.
Qed.

Lemma read_Ok a s values s' :
  read a s = Ok (values, s') -> s' = s ∧ buffers s !! data a = Some values.
Proof.
  unfold read. destruct (buffers s !! data a) as [v|]; [|discriminate].
  by intros [= <- <-].
Qed.

Lemma alloc_Ok values ds s a s' :
  alloc values ds s = Ok (a, s') ->
  unchanged s s' ∧ data a = next s ∧ next s' = S (next s).
Proof.
  intros [= <- <-]. simpl. split; [|done]. split; simpl; [lia|].
  intros l Hl. apply lookup_insert_ne. lia.
Qed.

Lemma write_Ok a values s u s' :
  write a values s = Ok (u, s') -> unchanged_but (data a) s s'.
Proof.
  intros [= <- <-]. split; simpl; [lia|].
  intros l _ Hne. by apply lookup_insert_ne.
Qed.

Lemma rand_Ok {A} (m : Rand A) s x s' :
  mem.rand m s = Ok (x, s') -> unchanged s s'.
Proof.
  unfold mem.rand. destruct (m (random_state s)) as [[y st]|e]; [|discriminate].
  intros [= <- <-]. split; simpl; [lia|done].
Qed.

Lemma getitem_isfinite_Ok a s a' s' :
  getitem_isfinite a s = Ok (a', s') ->
  unchanged s s' ∧ data a' = next s ∧ next s' = S (next s) ∧
  is_Some (buffers s !! data a).
Proof.
  unfold getitem_isfinite.
  intros (values & s1 & [-> Hv]%read_Ok & (Hu & Ha & Hn)%alloc_Ok)%bind_Ok.
  by rewrite Hv.
Qed.

Lemma getitem_rows_Ok a sample s a' s' :
  getitem_rows a sample s = Ok (a', s') ->
  unchanged s s' ∧ data a' = next s ∧ next s' = S (next s).
Proof.
  unfold getitem_rows.
  intros (values & s1 & [-> Hv]%read_Ok & H)%bind_Ok.
  apply bind_Ok in H as (rows & s2 & [_ ->]%lift_Ok & H).
  by apply alloc_Ok in H.
Qed.

Lemma copy_Ok a s a' s' :
  mem.copy a s = Ok (a', s') ->
  unchanged s s' ∧ data a' = next s ∧ next s' = S (next s).
Proof.
  unfold mem.copy.
  intros (values & s1 & [-> Hv]%read_Ok & H)%bind_Ok. by apply alloc_Ok in H.
Qed.

Lemma setitem_isnan_Ok a v s u s' :
  setitem_isnan a v s = Ok (u, s') -> unchanged_but (data a) s s'.
Proof.
  unfold setitem_isnan.
  intros (values & s1 & [-> Hv]%read_Ok & H)%bind_Ok. by apply write_Ok in H.
Qed.

Variable RNN_univariate_processing : ndarray -> nat -> Proc ndarray.
Variable deterioration_apply : ndarray -> params -> Proc ndarray.

(** C10. [process_series] does not mutate its input: the trim and the
    row subsample are new arrays, the one in-place write goes to the buffer
    of the corrupted batch, which is the copy of the subsample or a newer
    array (never the subsample, never the input), and every buffer that
    existed before the call, the one of the input series among them, holds
    after the call what it held before. *)
Theorem process_series_keeps_input series params s b d s' :
  reads_only RNN_univariate_processing ->
  writes_its_argument deterioration_apply ->
  well_formed s ->
  mem.process_series RNN_univariate_processing deterioration_apply
    series params s = Ok (b, d, s') ->
  (∀ l, l < next s -> buffers s' !! l = buffers s !! l) ∧
  is_Some (buffers s !! data series) ∧
  buffers s' !! data series = buffers s !! data series ∧
  data series < next s ∧ next s < data b ∧ data b < data d.
Proof.
  intros Hwin Hpol Hwf. unfold mem.process_series.
  intros (a1 & s1 & (Hu1 & Ha1 & Hn1 & Hin)%getitem_isfinite_Ok & H)%bind_Ok.
  apply bind_Ok in H as (a2 & s2 & Hu2%Hwin & H).
  apply bind_Ok in H as (sample & s3 & Hu3%rand_Ok & H).
  apply bind_Ok in H as (a4 & s4 & (Hu4 & Ha4 & Hn4)%getitem_rows_Ok & H).
  apply bind_Ok in H as (a5 & s5 & (Hu5 & Ha5 & Hn5)%copy_Ok & H).
  apply bind_Ok in H as (a6 & s6 & [Hu6 Ha6]%Hpol & H).
  apply bind_Ok in H as (u & s7 & Hu7%setitem_isnan_Ok & H).
  injection H as <- <- <-.
  assert (next s < data a4) as Hnew4.
  { destruct Hu2, Hu3. lia. }
  pose proof (unchanged_trans _ _ _ Hu1 Hu2) as H02.
  pose proof (unchanged_trans _ _ _ H02 Hu3) as H03.
  pose proof (unchanged_trans _ _ _ H03 Hu4) as H04.
  pose proof (unchanged_trans _ _ _ H04 Hu5) as H05.
  assert (next s <= data a5) as Hnew5 by (destruct H04; lia).
  pose proof (unchanged_but_new _ _ _ _ H05 Hnew5 Hu6) as H06.
  assert (data a4 < data a6) as Hnew6.
  { destruct Ha6 as [->|Ha6]; lia. }
  assert (next s <= data a6) as Hnew6' by lia.
  pose proof (unchanged_but_new _ _ _ _ H06 Hnew6' Hu7) as [_ H07].
  destruct Hin as [values Hin]. pose proof (Hwf _ _ Hin) as Hlt.
  split; [exact H07|]. split; [by eexists|]. split; [by apply H07|].
  simpl. lia.
Qed.

End mem_facts.

Lemma sliding_windows_reads_only : mem.reads_only mem.sliding_windows.
Proof.
  intros a L s a' s'. unfold mem.sliding_windows.
  intros (values & s1 & [-> _]%read_Ok & H)%bind_Ok.
  apply bind_Ok in H as (windows & s2 & [_ ->]%lift_Ok & H).
  by apply alloc_Ok in H as [H _].
Qed.

Lemma mark_missing_writes_its_argument : mem.writes_its_argument mem.mark_missing.
Proof.
  intros a p s a' s'. unfold mem.mark_missing.
  intros (values & s1 & [-> _]%read_Ok & H)%bind_Ok.
  apply bind_Ok in H as (marked & s2 & [Hn2 H2]%rand_Ok & H).
  apply bind_Ok in H as (u & s3 & [Hn3 H3]%write_Ok & H).
  injection H as <- <-. split; [|by left]. split; [lia|].
  intros l Hl Hne. rewrite H3 by (done || lia). by apply H2.
Qed.

Lemma fresh_process_well_formed series : mem.well_formed (mem.fresh_process series).
Proof.
  intros l values. unfold mem.fresh_process. simpl.
  intros [-> _]%lookup_singleton_Some. lia.
Qed.

Lemma process_series_keeps_input_witness :
  ∃ b d s',
    mem.process_series mem.sliding_windows mem.mark_missing
      {| mem.data := 0; mem.dims := [5] |} small_params
      (mem.fresh_process [1; 2; 3; 4; nan]%float) = Ok (b, d, s') ∧
    mem.buffers s' !! 0 = Some [1; 2; 3; 4; nan]%float.
Proof.
  destruct (mem.process_series mem.sliding_windows mem.mark_missing
              {| mem.data := 0; mem.dims := [5] |} small_params
              (mem.fresh_process [1; 2; 3; 4; nan]%float))
    as [[[b d] s']|e] eqn:Hrun; [|vm_compute in Hrun; discriminate].
  exists b, d, s'. split; [done|].
  destruct (process_series_keeps_input mem.sliding_windows mem.mark_missing
              _ _ _ _ _ _
              sliding_windows_reads_only mark_missing_writes_its_argument
              (fresh_process_well_formed _) Hrun)
    as (_ & _ & Hkeep & _).
  simpl in Hkeep. rewrite Hkeep. reflexivity.
Defined.

(** ** The two models of the batch preparation agree *)

Lemma rows_of_concat (rows : np.array2) L :
  Forall (fun row => length row = L) rows ->
  mem.rows_of (length rows) L (concat rows) = rows.
Proof.
  unfold mem.rows_of. induction 1 as [|row rows Hrow _ IH]; [done|].
  cbn [length seq map concat]. f_equal.
  - change (0 * L) with 0. by rewrite drop_0, take_app_length'.
  - rewrite <-fmap_S_seq. rewrite <-IH at 2.
    change (map ?f (S <$> ?l)) with (map f (map S l)).
    rewrite map_map. apply map_ext. intros i.
    replace (S i * L) with (length row + i * L) by lia.
    by rewrite drop_app_add.
Qed.

Lemma concat_map_map {A B} (f : A -> B) (rows : list (list A)) :
  concat (map (map f) rows) = map f (concat rows).
Proof.
  induction rows as [|row rows IH]; simpl; [done|]. by rewrite map_app, IH.
Qed.

Section refinement.

Local Abbreviation on_values := process_series.

Import mem.

Variable windowing : ndarray -> nat -> Proc ndarray.
Variable policy : ndarray -> params -> Proc ndarray.
Variable W : np.array1 -> nat -> result np.array2.
Variable P : np.array2 -> params -> RandomState -> np.array2 * RandomState.

Hypothesis windowing_W : windowing_refines windowing W.
Hypothesis W_fixed_length : fixed_length_windows W.
Hypothesis policy_P : policy_refines policy P.
Hypothesis P_same_shape : same_shape P.
Hypothesis policy_frame : writes_its_argument policy.

(** X17. A call in memory returns two arrays whose values are those that
    [process_series] returns on the value of the input; in particular the
    clean batch is not touched by the corruption of its copy. *)
Lemma process_series_in_memory series params s b d s' values :
  buffers s !! data series = Some values ->
  mem.process_series windowing policy series params s = Ok (b, d, s') ->
  ∃ B D,
    on_values W P values params (random_state s)
    = Ok (B, D, random_state s') ∧
    value3 b s' = Some B ∧ value3 d s' = Some D.
Proof using All.
  intros Hvalues. unfold mem.process_series.
  intros (a1 & s1 & H1 & H)%bind_Ok.
  apply bind_Ok in H as (a2 & s2 & H2 & H).
  apply bind_Ok in H as (sample & s3 & H3 & H).
  apply bind_Ok in H as (a4 & s4 & H4 & H).
  apply bind_Ok in H as (a5 & s5 & H5 & H).
  apply bind_Ok in H as (a6 & s6 & H6 & H).
  apply bind_Ok in H as (u & s7 & H7 & H).
  injection H as <- <- <-.
  (* the finite part, in a new array *)
  unfold getitem_isfinite in H1.
  apply bind_Ok in H1 as (v0 & s0 & [-> Hv0]%read_Ok & H1).
  rewrite Hvalues in Hv0. injection Hv0 as <-.
  injection H1 as <- <-.
  (* the windows *)
  destruct (windowing_W _ _ _ _ _ (drop_nonfinite values) H2)
    as (windows & HW & Hb2 & Hd2 & Hr2); [apply lookup_insert_eq|].
  simpl in Hr2.
  pose proof (W_fixed_length _ _ _ HW) as Hlen.
  (* the sample *)
  unfold mem.rand, mem.shape0 in H3. rewrite Hd2, Hr2 in H3. simpl in H3.
  destruct (choice (length windows) (np.min (length windows) (batch_size params))
              (random_state s)) as [[sample' st1]|e] eqn:Hch; [|discriminate].
  injection H3 as -> <-.
  (* the selected rows, in a new array *)
  unfold getitem_rows, mem.shape0, mem.shape1 in H4. rewrite Hd2 in H4.
  apply bind_Ok in H4 as (v4 & s4' & [-> Hv4]%read_Ok & H4).
  simpl in Hv4. rewrite Hb2 in Hv4. injection Hv4 as <-.
  simpl in H4. rewrite rows_of_concat in H4 by done.
  apply bind_Ok in H4 as (rows & s4' & [Hrows ->]%lift_Ok & H4).
  injection H4 as <- <-.
  assert (Forall (fun row => length row = len_input params) rows) as Hrowlen.
  { apply Forall_forall. intros row Hrow.
    eapply (proj1 (Forall_forall _ _) Hlen), take_rows_elem_of; eauto. }
  pose proof (take_rows_length _ _ _ Hrows) as Hnrows.
  (* the copy *)
  unfold mem.copy in H5.
  apply bind_Ok in H5 as (v5 & s5' & [-> Hv5]%read_Ok & H5).
  simpl in Hv5. rewrite lookup_insert_eq in Hv5. injection Hv5 as <-.
  injection H5 as <- <-.
  (* the policy, on the copy *)
  destruct (policy_frame _ _ _ _ _ H6) as [[Hn6 Hkeep6] Ha6].
  destruct (policy_P _ _ _ _ _ rows (len_input params) H6)
    as (raw & HP & Hb6 & Hd6); simpl;
    [apply lookup_insert_eq|by rewrite Hnrows|done|].
  simpl in *.
  pose proof (P_same_shape rows params st1) as Hshape.
  rewrite HP in Hshape. simpl in Hshape.
  assert (Forall (fun row => length row = len_input params) raw) as Hrawlen
    by (eapply same_shape_rows; eauto).
  assert (length raw = length sample) as Hnraw.
  { rewrite <-Hnrows. symmetry. by eapply Forall2_length. }
  (* the substitution, in place *)
  unfold setitem_isnan in H7.
  apply bind_Ok in H7 as (v7 & s7' & [-> Hv7]%read_Ok & H7).
  rewrite Hb6 in Hv7. injection Hv7 as <-.
  injection H7 as <- <-.
  exists (np.expand_dims rows),
         (np.expand_dims (map (map (fill (placeholder_value params))) raw)).
  split; [|split].
  - apply process_series_Ok. exists windows, sample, st1, rows, raw.
    repeat split; done.
  - unfold value3, value2, mem.shape0, mem.shape1. simpl.
    rewrite lookup_insert_ne by (destruct Ha6 as [->|]; lia).
    rewrite Hkeep6 by (simpl; lia).
    rewrite lookup_insert_ne by lia. rewrite lookup_insert_eq. simpl.
    by rewrite <-Hnrows, rows_of_concat.
  - unfold value3, value2, mem.shape0, mem.shape1. simpl.
    rewrite Hd6. simpl. rewrite lookup_insert_eq. simpl.
    change (fun x => if np.isnan x then placeholder_value params else x)
      with (fill (placeholder_value params)).
    rewrite <-concat_map_map, <-Hnraw.
    rewrite <-(length_map (map (fill (placeholder_value params))) raw).
    rewrite rows_of_concat; [done|].
    rewrite Forall_map. eapply Forall_impl; [exact Hrawlen|].
    intros row Hrow. simpl. by rewrite length_map.
Qed.

End refinement.

Lemma sliding_windows_refines :
  mem.windowing_refines mem.sliding_windows sliding_windows.
Proof.
  intros a L s a' s' values. unfold mem.sliding_windows.
  intros (v & s1 & [-> Hv]%read_Ok & H)%bind_Ok Hvalues.
  rewrite Hvalues in Hv. injection Hv as <-.
  apply bind_Ok in H as (windows & s2 & [HW ->]%lift_Ok & H).
  injection H as <- <-. exists windows. simpl.
  by rewrite lookup_insert_eq.
Qed.

Lemma mark_missing_refines : mem.policy_refines mem.mark_missing mark_missing.
Proof.
  intros a p s a' s' rows L. unfold mem.mark_missing.
  intros (v & s1 & [-> Hv]%read_Ok & H)%bind_Ok Hvalues Hdims Hrows.
  rewrite Hvalues in Hv. injection Hv as <-.
  unfold mem.shape0, mem.shape1 in H. rewrite Hdims in H. simpl in H.
  rewrite rows_of_concat in H by done.
  apply bind_Ok in H as (marked & s2 & Hdraw & H).
  unfold mem.rand, draw in Hdraw.
  destruct (mark_missing_rows rows (mem.random_state s)) as [marked' st] eqn:E.
  injection Hdraw as -> <-.
  apply bind_Ok in H as (u & s3 & Hwrite & H).
  injection Hwrite as <- <-. injection H as <- <-.
  exists marked. unfold mark_missing. simpl. by rewrite lookup_insert_eq.
Qed.

(** * Further properties of the training loops *)

(** ** Runs that may fail *)

Section behaves_rules.

Context {N : Type}.









(** What a returning run is known to have added carries over. *)
Lemma behaves_Done {A} (m : Run N A) Qd Qf w a w' :
  behaves m Qd Qf -> m w = Done a w' ->
  ∃ added, trace w' = trace w ++ added ∧ Qd a added.
Proof. intros Hm E. specialize (Hm w). by rewrite E in Hm. Qed.


(** Rules for an invariant of the added events that holds of the empty
    trace and is kept by concatenation. *)
Variable I : list event -> Prop.
Hypothesis I_nil : I [].
Hypothesis I_app : ∀ l1 l2, I l1 -> I l2 -> I (l1 ++ l2).










End behaves_rules.




Section failed_runs.

Variable fs : filesystem.
Variable RNN_univariate_processing : np.array1 -> nat -> result np.array2.
Variable deterioration_apply : np.array2 -> params -> RandomState -> np.array2 * RandomState.
Context {N : Type}.
Variable train_on_batch : N -> np.array3 -> np.array3 -> N.
Variable train_step_GAN : N -> np.array3 -> np.array3 -> N.
Variable train_step_partial_GAN : N -> np.array3 -> np.array3 -> np.array3 -> float -> N.

Local Abbreviation training l params :=
  (train l fs RNN_univariate_processing deterioration_apply
     train_on_batch train_step_GAN train_step_partial_GAN params).





End failed_runs.

(** ** The file lists and the shuffle *)






Section shuffle_facts.

Context {N : Type}.




End shuffle_facts.

Lemma filter_absent (name : string) (files : list string) :
  name ∉ files -> filter (fun f => f ≠ name) files = files.
Proof.
  induction files as [|f files IH]; [done|].
  intros Hnot. apply not_elem_of_cons in Hnot as [Hne Hnot].
  rewrite filter_cons_True by done. by rewrite IH.
Qed.

Lemma remove_filter (name : string) (files : list string) :
  NoDup files -> remove name files = filter (fun f => f ≠ name) files.
Proof.
  induction 1 as [|f files Hf _ IH]; [done|]. simpl.
  destruct (String.eqb_spec f name) as [->|Hne].
  - rewrite filter_cons_False by (intros H; by apply H).
    by rewrite filter_absent.
  - rewrite filter_cons_True by done. by rewrite IH.
Qed.

Lemma conditional_remove (name : string) (files : list string) :
  NoDup files ->
  (if bool_decide (name ∈ files) then remove name files else files)
  = filter (fun f => f ≠ name) files.
Proof.
  intros Hnd. case_bool_decide.
  - by apply remove_filter.
  - by rewrite filter_absent.
Qed.

(** X1. The list of data files of a directory is its listing without
    the readme and without [.gitignore], in the order of the listing (for a
    listing without repeated names, as a directory listing is). *)
Theorem data_files_filters fs dir readme names :
  listdir fs (getcwd fs +:+ dir) = Ok names ->
  NoDup names ->
  ∃ files,
    data_files fs dir readme = Ok files ∧
    files = filter (fun f => f ≠ readme ∧ f ≠ ".gitignore") names ∧
    (∀ f, f ∈ files <-> f ∈ names ∧ f ≠ readme ∧ f ≠ ".gitignore") ∧
    files `sublist_of` names ∧
    NoDup files.
Proof.
  intros Hls Hnd. unfold data_files. rewrite Hls. eexists. split; [done|].
  rewrite (conditional_remove readme names Hnd).
  rewrite conditional_remove by by apply NoDup_filter.
  rewrite list_filter_filter.
  assert (filter (fun f => f ≠ ".gitignore" ∧ f ≠ readme) names
          = filter (fun f => f ≠ readme ∧ f ≠ ".gitignore") names) as ->.
  { apply list_filter_iff. intros f. tauto. }
  split; [done|]. split; [|split].
  - intros f. rewrite list_elem_of_filter. tauto.
  - apply sublist_filter.
  - by apply NoDup_filter.
Qed.

Lemma data_files_filters_witness :
  ∃ files,
    data_files project "/data_processed/Training/" "readme_training.md"
    = Ok files ∧ files = ["a.npy"; "b.npy"; "c.npy"].
Proof.
  destruct (data_files_filters project "/data_processed/Training/"
              "readme_training.md"
              ["readme_training.md"; "a.npy"; "b.npy"; ".gitignore"; "c.npy"])
    as (files & Hrun & Heq & _).
  - vm_compute. reflexivity.
  - repeat constructor; vm_compute; intros H;
      repeat (apply elem_of_cons in H as [H|H]; [discriminate|]);
      by apply elem_of_nil in H.
  - exists files. split; [done|]. rewrite Heq. vm_compute. reflexivity.
Defined.

(** ** Runs that cannot complete *)






Section incomplete_runs.

Variable fs : filesystem.
Variable RNN_univariate_processing : np.array1 -> nat -> result np.array2.
Variable deterioration_apply : np.array2 -> params -> RandomState -> np.array2 * RandomState.
Context {N : Type}.
Variable train_on_batch : N -> np.array3 -> np.array3 -> N.
Variable train_step_GAN : N -> np.array3 -> np.array3 -> N.
Variable train_step_partial_GAN : N -> np.array3 -> np.array3 -> np.array3 -> float -> N.

Local Abbreviation training l params :=
  (train l fs RNN_univariate_processing deterioration_apply
     train_on_batch train_step_GAN train_step_partial_GAN params).

(** X2. A missing data directory aborts a run at once, with the error
    that names the directory: nothing is trained, printed or saved. *)
Theorem missing_directory_aborts l params (w : world N) dir :
  dir = "/data_processed/Training/" ∨
  (dir = "/data_processed/Validation/" ∧
   is_Some (directories fs !! (getcwd fs +:+ "/data_processed/Training/"))) ->
  directories fs !! (getcwd fs +:+ dir) = None ->
  training l params w = Failed (FileNotFoundError (getcwd fs +:+ dir)) w.
Proof.
  intros [->|[-> [names Hnames]]] Hmissing.
  - destruct l; unfold train, train_vanilla_seq2seq, train_GAN, train_partial_GAN,
      and_then, raising, training_files, data_files, listdir;
      by rewrite Hmissing.
  - destruct l; unfold train, train_vanilla_seq2seq, train_GAN, train_partial_GAN,
      and_then, raising, training_files, validation_files, data_files, listdir;
      by rewrite Hnames, Hmissing.
Qed.






End incomplete_runs.


Lemma missing_directory_aborts_witness :
  run_on project_no_training PartialGAN scenario
  = Failed (FileNotFoundError "/project/data_processed/Training/") start.
Proof.
  apply (missing_directory_aborts project_no_training sliding_windows
           mark_missing counted2 counted2 counted4 PartialGAN scenario start
           "/data_processed/Training/").
  - by left.
  - vm_compute. reflexivity.
Defined.



(** ** The whole trace of a run *)

Section whole_trace.

Variable fs : filesystem.
Variable RNN_univariate_processing : np.array1 -> nat -> result np.array2.
Variable deterioration_apply : np.array2 -> params -> RandomState -> np.array2 * RandomState.
Context {N : Type}.
Variable train_on_batch : N -> np.array3 -> np.array3 -> N.
Variable train_step_GAN : N -> np.array3 -> np.array3 -> N.
Variable train_step_partial_GAN : N -> np.array3 -> np.array3 -> np.array3 -> float -> N.

Local Abbreviation training l params :=
  (train l fs RNN_univariate_processing deterioration_apply
     train_on_batch train_step_GAN train_step_partial_GAN params).

(** X7. A run that returns, in full.  Epoch after epoch and file after
    file: the gradient step (in the partial-adversarial loop after the line
    that the step writes), followed at the iterations divisible by 100 by
    the report (one line in the vanilla loop, two in the adversarial ones);
    only then the completion line and the saves, each followed by its
    confirmation line, the generator before the discriminator.  The
    networks have gone through [n_epochs] times the number of training
    files training steps, and through nothing else. *)
Theorem train_trace l params w w' :
  training l params w = Done tt w' ->
  ∃ X_files,
    training_files fs = Ok X_files ∧
    trace w' = trace w
               ++ flat_map (epoch_events l (length X_files)) (seq 0 (n_epochs params))
               ++ closing_events l fs params ∧
    applied (training_step l train_on_batch train_step_GAN
               train_step_partial_GAN params)
            (n_epochs params * length X_files) (nets w) (nets w').
Proof.
  intros Hrun.
  destruct (train_Done_files fs RNN_univariate_processing deterioration_apply
              train_on_batch train_step_GAN train_step_partial_GAN _ _ _ _ Hrun)
    as [X_files HX].
  destruct (train_appends fs RNN_univariate_processing deterioration_apply
              train_on_batch train_step_GAN train_step_partial_GAN
              l params X_files HX _ _ _ Hrun) as (added & Htrace & ->).
  exists X_files. split; [done|]. split; [done|].
  apply applied_flat.
  exact (train_moves fs RNN_univariate_processing deterioration_apply
           train_on_batch train_step_GAN train_step_partial_GAN
           l params X_files HX _ _ _ Hrun).
Qed.

End whole_trace.

Lemma train_trace_witness :
  ∃ w', run PartialGAN scenario = Done tt w' ∧
        trace w' =
          [Printed DiscriminatorLosses; GradientStep 0 0;
           Printed (Progress 0 0); Printed (Losses 0 0);
           Printed DiscriminatorLosses; GradientStep 0 1;
           Printed DiscriminatorLosses; GradientStep 0 2;
           Printed (Text (LF +:+ "Training complete." +:+ LF));
           Saved Generator "/project/saved_models/imputer.h5";
           Printed (Text ("Generator saved at:" +:+ LF
                          +:+ "/project/saved_models/imputer.h5"));
           Saved Discriminator "/project/saved_models/imputer_discriminator.h5";
           Printed (Text (LF +:+ "Discriminator saved at:" +:+ LF
                          +:+ "/project/saved_models/imputer_discriminator.h5"))] ∧
        nets w' = 3.
Proof.
  destruct (run PartialGAN scenario) as [[] w'|e w'] eqn:Hrun;
    [|vm_compute in Hrun; discriminate].
  exists w'. split; [done|].
  destruct (train_trace project sliding_windows mark_missing
              counted2 counted2 counted4 PartialGAN scenario start w' Hrun)
    as (X_files & HX & Htrace & Hnets).
  vm_compute in HX. injection HX as <-. split.
  - rewrite Htrace. reflexivity.
  - apply (applied_counts (fun n => n)) in Hnets; [exact Hnets|].
    intros n n' (batch & deteriorated & real_example & ->). reflexivity.
Defined.

(** ** Batch preparation: errors *)

(** X8. For a batch size that is not negative, the row subsample never
    raises: [np.random.choice] is never asked for more rows than there are,
    nor for a row of an empty array, and every index that it returns is the
    index of a row.  This holds also when there is no window at all and
    when the batch size is 0. *)
Theorem subsample_never_raises (series : np.array2) params st :
  ∃ rows st',
    subsample series params st = Ok (rows, st') ∧
    length rows = Nat.min (length series) (batch_size params) ∧
    ∀ row, row ∈ rows -> row ∈ series.
Proof.
  destruct (choice_spec (length series)
              (Nat.min (length series) (batch_size params)) st)
    as (sample & st' & Hchoice & Hlen & _ & Hvalid); [lia|].
  destruct (take_rows_spec series sample Hvalid) as [rows Hrows].
  exists rows, st'. split; [|split].
  - unfold subsample, bind, lift, np.shape0, np.min. by rewrite Hchoice, Hrows.
  - apply take_rows_length in Hrows. congruence.
  - intros row Hrow. apply take_rows_Ok in Hrows.
    apply list_elem_of_lookup in Hrow as [j Hj].
    destruct (Forall2_lookup_r _ _ _ _ _ Hrows Hj) as (i & _ & Hi).
    by apply list_elem_of_lookup_2 in Hi.
Qed.

(** ** The real observations of the adversarial loops *)

Lemma and_then_Done {N A B} (m : Run N A) (k : A -> Run N B) w b w' :
  and_then m k w = Done b w' <-> ∃ a w1, m w = Done a w1 ∧ k a w1 = Done b w'.
Proof.
  unfold and_then. split.
  - destruct (m w) as [a w1|e w1]; [eauto|discriminate].
  - by intros (a & w1 & -> & H).
Qed.

Lemma raising_Done {N A} (r : result A) (w : world N) a w' :
  raising r w = Done a w' <-> r = Ok a ∧ w' = w.
Proof.
  unfold raising. destruct r as [a'|e]; split.
  - by intros [= -> ->].
  - by intros [[= ->] ->].
  - discriminate.
  - by intros [[=] _].
Qed.

Lemma rand_Done {N A} (m : Rand A) (w : world N) a w' :
  rand m w = Done a w' ->
  ∃ st, m (rng w) = Ok (a, st) ∧ trace w' = trace w ∧ nets w' = nets w ∧ rng w' = st.
Proof.
  unfold rand. destruct (m (rng w)) as [[a' st]|e]; [|discriminate].
  intros [= <- <-]. by exists st.
Qed.

Lemma choice1_elem_of {A} (l : list A) st x st' :
  np.random.choice1 l st = Ok (x, st') -> x ∈ l.
Proof.
  unfold np.random.choice1.
  destruct (random_interval (length l - 1) st) as [i st1].
  destruct (l !! i) as [y|] eqn:E; [|discriminate].
  intros [= <- <-]. by eapply list_elem_of_lookup_2.
Qed.

Lemma elem_of_delete_NoDup {A} (l : list A) i x :
  NoDup l -> x ∈ base.delete i l -> x ∈ l ∧ l !! i ≠ Some x.
Proof.
  intros Hnd Hx. split.
  - by eapply list_elem_of_delete_inv.
  - intros Hi.
    rewrite <-(take_drop_middle l i x Hi) in Hnd.
    rewrite delete_take_drop in Hx.
    apply NoDup_app in Hnd as (_ & Hl & Hr).
    apply NoDup_cons in Hr as [Hr _].
    apply elem_of_app in Hx as [Hx|Hx]; [|done].
    by apply (Hl x Hx); left.
Qed.

Section real_observations_facts.

Variable fs : filesystem.
Variable RNN_univariate_processing : np.array1 -> nat -> result np.array2.
Context {N : Type}.

(** X9. The real example of an adversarial step is made from a training
    file other than the one of the current iteration (the listing having no
    repeated name): its rows are windows of the finite part of that file,
    min(number of windows, batch size) of them, never corrupted and with no
    placeholder; making it prints nothing and trains nothing. *)
Theorem real_observations_from_another_file params X_files iteration
    (w : world N) real_example w' :
  NoDup X_files ->
  real_observations fs RNN_univariate_processing params X_files iteration w
  = Done real_example w' ->
  ∃ name series windows rows,
    name ∈ X_files ∧
    X_files !! iteration ≠ Some name ∧
    load fs (training_file fs name) = Ok series ∧
    RNN_univariate_processing (drop_nonfinite series) (len_input params)
    = Ok windows ∧
    real_example = np.expand_dims rows ∧
    (∀ row, row ∈ rows -> row ∈ windows) ∧
    length rows = Nat.min (length windows) (batch_size params) ∧
    trace w' = trace w ∧ nets w' = nets w.
Proof.
  intros Hnd. unfold real_observations.
  intros (others & w1 & [Hdel ->]%raising_Done & H)%and_then_Done.
  apply and_then_Done in H as (name & w2 & Hname & H).
  apply rand_Done in Hname as (st2 & Hname & Ht2 & Hn2 & _).
  apply and_then_Done in H as (series & w3 & [Hload ->]%raising_Done & H).
  apply and_then_Done in H as (windows & w4 & [HW ->]%raising_Done & H).
  apply and_then_Done in H as (rows & w5 & Hsub & H).
  apply rand_Done in Hsub as (st5 & Hsub & Ht5 & Hn5 & _).
  injection H as <- <-.
  unfold np.delete in Hdel.
  destruct (iteration <? length X_files); [|discriminate].
  injection Hdel as <-.
  apply choice1_elem_of in Hname.
  destruct (elem_of_delete_NoDup _ _ _ Hnd Hname) as [Hin Hother].
  unfold subsample, np.shape0, np.min in Hsub.
  apply bind_Ok in Hsub as (sample & st' & Hch%choice_Ok & [Hrows ->]%lift_Ok).
  exists name, series, windows, rows. repeat split; try done.
  - intros row Hrow. by eapply take_rows_elem_of.
  - rewrite (take_rows_length _ _ _ Hrows). apply Hch.
  - congruence.
  - congruence.
Qed.

End real_observations_facts.

Lemma real_observations_from_another_file_witness :
  ∃ r w' name,
    real_observations project sliding_windows scenario
      ["a.npy"; "b.npy"; "c.npy"] 0 start = Done r w' ∧
    name ∈ ["a.npy"; "b.npy"; "c.npy"] ∧ name ≠ "a.npy" ∧ trace w' = [].
Proof.
  destruct (real_observations project sliding_windows scenario
              ["a.npy"; "b.npy"; "c.npy"] 0 start) as [r w'|e w'] eqn:Hrun;
    [|vm_compute in Hrun; discriminate].
  destruct (real_observations_from_another_file project sliding_windows
              scenario ["a.npy"; "b.npy"; "c.npy"] 0 start r w')
    as (name & series & windows & rows & Hin & Hother & _ & _ & _ & _ & _ & Ht & _).
  - repeat constructor; vm_compute; intros H;
      repeat (apply elem_of_cons in H as [H|H]; [discriminate|]);
      by apply elem_of_nil in H.
  - exact Hrun.
  - exists r, w', name. split; [done|]. split; [done|].
    split; [intros ->; by apply Hother|]. exact Ht.
Defined.

(** ** Batch preparation: what the batches contain *)

Lemma drop_nonfinite_elem_of x series :
  x ∈ drop_nonfinite series <-> x ∈ series ∧ np.isfinite x = true.
Proof.
  unfold drop_nonfinite. rewrite mask_select_map, list_elem_of_In, filter_In.
  by rewrite <-list_elem_of_In.
Qed.

Lemma entries3_expand_dims (rows : np.array2) :
  entries3 (np.expand_dims rows) = concat rows.
Proof.
  unfold entries3, np.expand_dims.
  induction rows as [|row rows IH]; simpl; [done|].
  rewrite concat_app, IH. f_equal.
  induction row as [|x row IHrow]; simpl; [done|]. by rewrite IHrow.
Qed.

Section batch_contents.

Variable RNN_univariate_processing : np.array1 -> nat -> result np.array2.
Variable deterioration_apply : np.array2 -> params -> RandomState -> np.array2 * RandomState.

(** X10. For a windowing utility that slices its input, the clean batch
    holds only finite values, each of them a value of the input series:
    no NaN, no infinity and no placeholder reaches the training target. *)
Theorem clean_batch_finite series params st b d st' :
  slices RNN_univariate_processing ->
  process_series RNN_univariate_processing deterioration_apply series params st
  = Ok (b, d, st') ->
  all_finite3 b ∧ ∀ x, x ∈ entries3 b -> x ∈ series.
Proof.
  intros Hslices
    (windows & sample & st1 & rows & raw & HW & _ & Hrows & _ & -> & _)%process_series_Ok.
  assert (∀ x, x ∈ entries3 (np.expand_dims rows) ->
               x ∈ series ∧ np.isfinite x = true) as H.
  { intros x. rewrite entries3_expand_dims.
    intros (row & Hrow & Hx)%list_elem_of_In%in_concat.
    apply list_elem_of_In in Hrow, Hx.
    apply (take_rows_elem_of _ _ _ _ Hrows) in Hrow.
    apply drop_nonfinite_elem_of. by eapply Hslices. }
  split.
  - apply Forall_forall. intros x Hx. by apply H.
  - intros x Hx. by apply H.
Qed.

End batch_contents.

Lemma sliding_windows_slices : slices sliding_windows.
Proof.
  intros series L windows. unfold sliding_windows.
  destruct (length series <? L); [discriminate|]. intros [= <-] row x.
  intros (i & -> & _)%list_elem_of_fmap Hx.
  apply subseteq_take, subseteq_drop in Hx. exact Hx.
Qed.

Lemma clean_batch_finite_witness :
  ∃ st' : RandomState,
    process_series sliding_windows mark_missing
      [1; infinity; 2; 3; 4; nan]%float small_params seed0
    = Ok ([[[2]; [3]]; [[3]; [4]]]%float, [[[2]; [0]]; [[0]; [4]]]%float, st') ∧
    all_finite3 [[[2]; [3]]; [[3]; [4]]]%float.
Proof.
  eexists. split; [vm_compute; reflexivity|].
  eapply (clean_batch_finite sliding_windows mark_missing
            [1; infinity; 2; 3; 4; nan]%float small_params seed0).
  - apply sliding_windows_slices.
  - vm_compute. reflexivity.
Defined.

Lemma process_series_in_memory_witness :
  ∃ b d s' B D,
    mem.process_series mem.sliding_windows mem.mark_missing
      {| mem.data := 0; mem.dims := [5] |} small_params
      (mem.fresh_process [1; 2; 3; 4; nan]%float) = Ok (b, d, s') ∧
    process_series sliding_windows mark_missing [1; 2; 3; 4; nan]%float
      small_params seed0 = Ok (B, D, mem.random_state s') ∧
    mem.value3 b s' = Some B ∧ mem.value3 d s' = Some D.
Proof.
  destruct (mem.process_series mem.sliding_windows mem.mark_missing
              {| mem.data := 0; mem.dims := [5] |} small_params
              (mem.fresh_process [1; 2; 3; 4; nan]%float))
    as [[[b d] s']|e] eqn:Hrun; [|vm_compute in Hrun; discriminate].
  destruct (process_series_in_memory mem.sliding_windows mem.mark_missing
              sliding_windows mark_missing
              sliding_windows_refines sliding_windows_fixed_length
              mark_missing_refines mark_missing_same_shape
              mark_missing_writes_its_argument
              {| mem.data := 0; mem.dims := [5] |} small_params
              (mem.fresh_process [1; 2; 3; 4; nan]%float) b d s'
              [1; 2; 3; 4; nan]%float eq_refl Hrun)
    as (B & D & HBD & Hb & Hd).
  exists b, d, s', B, D. by split.
Defined.

(** * Further properties of the losses *)

Section more_loss_facts.

Local Open Scope R_scope.

Lemma zip_with_map_l {A B C} (f : B -> A -> C) (g : A -> B) (l : list A) :
  zip_with f (map g l) l = map (fun x => f (g x) x) l.
Proof. induction l as [|x l IH]; simpl; by rewrite ?IH. Qed.

Lemma softplus_pos t : 0 < softplus t.
Proof.
  unfold softplus. rewrite <-ln_1. apply ln_increasing; [lra|].
  pose proof (exp_pos t). lra.
Qed.

(** [log(1 + exp(t)) = t + log(1 + exp(-t))]. *)
Lemma softplus_shift t : softplus t = t + softplus (- t).
Proof.
  unfold softplus. pose proof (exp_pos t) as Ht. pose proof (exp_pos (- t)) as Hn.
  rewrite <-(ln_exp t) at 2. rewrite <-ln_mult by lra. f_equal.
  rewrite Rmult_plus_distr_l, <-exp_plus.
  replace (t + - t) with 0 by ring. rewrite exp_0. ring.
Qed.

(** The cross-entropy of a logit against the hard labels. *)
Lemma cross_entropy_label_1 x :
  tf.sigmoid_cross_entropy_with_logits 1 x = softplus (- x).
Proof.
  unfold tf.sigmoid_cross_entropy_with_logits.
  destruct (Rle_dec 0 x) as [Hx|Hx].
  - rewrite Rmax_left, Rabs_pos_eq by lra. unfold softplus. ring.
  - rewrite Rmax_right, Rabs_left by lra.
    rewrite (softplus_shift (- x)). unfold softplus. ring.
Qed.

Lemma cross_entropy_label_0 x :
  tf.sigmoid_cross_entropy_with_logits 0 x = softplus x.
Proof.
  unfold tf.sigmoid_cross_entropy_with_logits.
  destruct (Rle_dec 0 x) as [Hx|Hx].
  - rewrite Rmax_left, Rabs_pos_eq by lra.
    rewrite (softplus_shift x). unfold softplus. ring.
  - rewrite Rmax_right, Rabs_left by lra. rewrite Ropp_involutive.
    unfold softplus. ring.
Qed.

Lemma cross_entropy_nonneg z x :
  0 <= z <= 1 -> 0 <= tf.sigmoid_cross_entropy_with_logits z x.
Proof.
  intros Hz. unfold tf.sigmoid_cross_entropy_with_logits.
  pose proof (softplus_pos (- Rabs x)) as Hs. unfold softplus in Hs.
  destruct (Rle_dec 0 x) as [Hx|Hx].
  - rewrite Rmax_left by lra. nra.
  - rewrite Rmax_right by lra. nra.
Qed.

Lemma reduce_mean_nonneg l : Forall (fun x => 0 <= x) l -> 0 <= tf.reduce_mean l.
Proof.
  intros Hl. unfold tf.reduce_mean.
  assert (0 <= foldr Rplus 0 l) as Hsum.
  { induction Hl as [|x l Hx _ IH]; simpl; lra. }
  destruct l as [|x l]; [simpl; lra|].
  apply Rmult_le_pos; [done|]. left. apply Rinv_0_lt_compat.
  apply lt_0_INR. simpl. lia.
Qed.

Lemma BinaryCrossentropy_nonneg (y_true y_pred : tf.tensor2) :
  Forall (Forall (fun t => 0 <= t <= 1)) y_true ->
  0 <= tf.BinaryCrossentropy y_true y_pred.
Proof.
  intros Ht. unfold tf.BinaryCrossentropy. apply reduce_mean_nonneg.
  revert y_pred. induction Ht as [|zs y_true Hzs _ IH]; intros [|xs y_pred];
    simpl; try constructor; [|apply IH].
  apply reduce_mean_nonneg. clear -Hzs. revert xs.
  induction Hzs as [|z zs Hz _ IH]; intros [|x xs]; simpl; try constructor;
    [by apply cross_entropy_nonneg|apply IH].
Qed.

Lemma BinaryCrossentropy_hard (c : R) (x : tf.tensor2) :
  tf.BinaryCrossentropy (map (map (fun _ => c)) x) x
  = tf.reduce_mean
      (map (fun xs =>
              tf.reduce_mean (map (tf.sigmoid_cross_entropy_with_logits c) xs)) x).
Proof.
  unfold tf.BinaryCrossentropy. rewrite zip_with_map_l. f_equal.
  apply map_ext. intros xs. by rewrite zip_with_map_l.
Qed.

(** X11. The generator loss of the GAN loop is, as a formula, the mean
    over the scores that the discriminator gives to the imputations of
    [log(1 + exp(-score))]; the generator loss of the partial-adversarial
    loop at weight 0 is that same loss, whatever the batches. *)
Theorem generator_loss_is_softplus (fakes : tf.tensor2) :
  train_GAN.generator_loss fakes
  = tf.reduce_mean
      (map (fun xs => tf.reduce_mean (map (fun x => softplus (- x)) xs)) fakes) ∧
  (∀ batch deteriorated,
     train_partial_GAN.generator_loss batch deteriorated fakes 0
     = train_GAN.generator_loss fakes).
Proof.
  split.
  - unfold train_GAN.generator_loss, train_GAN.cross_entropy, tf.ones_like.
    rewrite BinaryCrossentropy_hard. f_equal. apply map_ext. intros xs.
    f_equal. apply map_ext. intros x. apply cross_entropy_label_1.
  - intros batch deteriorated. unfold train_partial_GAN.generator_loss,
      train_GAN.generator_loss. simpl. unfold train_partial_GAN.cross_entropy,
      train_GAN.cross_entropy. ring.
Qed.

(** X12. With its hard labels, the discriminator loss of the
    partial-adversarial loop is the mean of [log(1 + exp(score))] over the
    scores of the imputations plus the mean of [log(1 + exp(-score))] over
    the scores of the real examples. *)
Theorem partial_discriminator_loss_is_softplus (reals fakes : tf.tensor2) :
  (train_partial_GAN.discriminator_loss reals fakes).1
  = tf.reduce_mean (map (fun xs => tf.reduce_mean (map softplus xs)) fakes)
    + tf.reduce_mean
        (map (fun xs => tf.reduce_mean (map (fun x => softplus (- x)) xs)) reals).
Proof.
  unfold train_partial_GAN.discriminator_loss, train_partial_GAN.cross_entropy,
    tf.zeros_like, tf.ones_like. cbn [fst].
  rewrite !BinaryCrossentropy_hard. f_equal; f_equal; apply map_ext; intros xs;
    f_equal; apply map_ext; intros x.
  - apply cross_entropy_label_0.
  - apply cross_entropy_label_1.
Qed.

(** X13. On the scores of a batch, no loss of the adversarial loops is
    negative: neither the generator loss, nor the discriminator loss with
    hard labels, nor the discriminator loss with soft labels, whatever the
    draws. *)
Theorem adversarial_losses_nonneg (reals fakes : tf.tensor2) (g : tf.Generator) :
  scores reals -> scores fakes ->
  0 <= train_GAN.generator_loss fakes ∧
  0 <= (train_GAN.discriminator_loss reals fakes g).1 ∧
  0 <= (train_partial_GAN.discriminator_loss reals fakes).1.
Proof.
  intros _ _.
  assert (∀ c x, 0 <= c <= 1 ->
                 Forall (Forall (fun t => 0 <= t <= 1))
                        (map (map (fun _ : R => c)) x)) as Hhard.
  { intros c x Hc. rewrite Forall_map. apply Forall_forall. intros row _.
    simpl. rewrite Forall_map. by apply Forall_forall. }
  split; [|split].
  - apply BinaryCrossentropy_nonneg, Hhard. lra.
  - unfold train_GAN.discriminator_loss.
    pose proof (random_uniform_range (tf.shape fakes) 0.0 0.2 g ltac:(lra)) as Hf.
    destruct (tf.random_uniform (tf.shape fakes) 0.0 0.2 g) as [tfk g1].
    pose proof (random_uniform_range (tf.shape reals) 0.8 1 g1 ltac:(lra)) as Hr.
    destruct (tf.random_uniform (tf.shape reals) 0.8 1 g1) as [trl g2].
    simpl in *.
    assert (0 <= train_GAN.cross_entropy tfk fakes).
    { apply BinaryCrossentropy_nonneg. eapply Forall_impl; [exact Hf|].
      intros row Hrow. eapply Forall_impl; [exact Hrow|]. simpl. intros; lra. }
    assert (0 <= train_GAN.cross_entropy trl reals).
    { apply BinaryCrossentropy_nonneg. eapply Forall_impl; [exact Hr|].
      intros row Hrow. eapply Forall_impl; [exact Hrow|]. simpl. intros; lra. }
    lra.
  - unfold train_partial_GAN.discriminator_loss. cbn [fst].
    assert (0 <= train_partial_GAN.cross_entropy (tf.zeros_like fakes) fakes)
      by (apply BinaryCrossentropy_nonneg, Hhard; lra).
    assert (0 <= train_partial_GAN.cross_entropy (tf.ones_like reals) reals)
      by (apply BinaryCrossentropy_nonneg, Hhard; lra).
    lra.
Qed.

(** X14. In the training step of the partial-adversarial loop the
    regression term is the same for every generator: between two values of
    the generator's trainable variables the generator loss differs by
    [(1 - w)] times the difference of the adversarial losses, and at weight
    1 it does not differ at all. *)
Theorem partial_generator_loss_regression_constant {Wg Wd : Type}
    (generator : Wg -> tf.tensor3 -> tf.tensor3)
    (discriminator : Wd -> tf.tensor3 -> tf.tensor2)
    (og : trainer Wg) (od : trainer Wd)
    (wg wg' : Wg) (wd : Wd) (batch deteriorated real_example : tf.tensor3) (w : R) :
  let loss w wg :=
    (train_partial_GAN.train_step generator discriminator og od
       wg wd batch deteriorated real_example w).1.1 in
  let adversarial wg :=
    train_GAN.generator_loss (discriminator wd (generator wg deteriorated)) in
  loss w wg - loss w wg' = (1 - w) * (adversarial wg - adversarial wg') ∧
  loss 1 wg = loss 1 wg'.
Proof.
  intros loss adversarial. unfold loss.
  rewrite !train_step_generator_loss.
  unfold adversarial, train_GAN.generator_loss, train_partial_GAN.cross_entropy,
    train_GAN.cross_entropy.
  split; ring.
Qed.

End more_loss_facts.

Lemma scores_example (a b : R) : scores [[a]; [b]].
Proof.
  split; [done|]. split; [simpl; lia|]. by repeat constructor.
Qed.

Lemma adversarial_losses_nonneg_witness :
  (0 <= train_GAN.generator_loss [[0]; [1]])%R ∧
  (0 <= (train_GAN.discriminator_loss [[2]; [3]] [[0]; [1]] tf_seed).1)%R ∧
  (0 <= (train_partial_GAN.discriminator_loss [[2]; [3]] [[0]; [1]]).1)%R.
Proof.
  apply (adversarial_losses_nonneg [[2]; [3]] [[0]; [1]] tf_seed)%R;
    apply scores_example.
Defined.

Section soft_label_draws.

Local Open Scope R_scope.






End soft_label_draws.


(** * Where the models are saved *)

Lemma string_app_cons c (s t : string) : String c s +:+ t = String c (s +:+ t).
Proof. reflexivity. Qed.

Lemma string_app_assoc (s1 s2 s3 : string) :
  (s1 +:+ s2) +:+ s3 = s1 +:+ (s2 +:+ s3).
Proof.
  induction s1 as [|c s1 IH]; [done|]. rewrite !string_app_cons. by f_equal.
Qed.

Lemma string_length_app (s1 s2 : string) :
  String.length (s1 +:+ s2) = String.length s1 + String.length s2.
Proof.
  induction s1 as [|c s1 IH]; [done|].
  rewrite string_app_cons. cbn [String.length]. rewrite IH. reflexivity.
Qed.

Lemma string_app_inv_tail (s1 s2 t : string) :
  s1 +:+ t = s2 +:+ t -> s1 = s2.
Proof.
  revert s2. induction s1 as [|c s1 IH]; intros [|c' s2] H.
  - done.
  - apply (f_equal String.length) in H.
    rewrite !string_length_app in H. cbn [String.length] in H. lia.
  - apply (f_equal String.length) in H.
    rewrite !string_length_app in H. cbn [String.length] in H. lia.
  - rewrite !string_app_cons in H. injection H as -> H. f_equal. by apply IH.
Qed.

(** X16. The path strings given to [save]: in one run the generator and
    the discriminator are saved under different strings, and different
    model names give different strings; but the discriminator of a run named
    [name] and the model (or generator) of a run named
    [name ++ "_discriminator"] are saved under one and the same string. *)
Theorem saved_paths fs (name name' : string) :
  saved_model fs name ≠ saved_discriminator fs name ∧
  (saved_model fs name = saved_model fs name' <-> name = name') ∧
  (saved_discriminator fs name = saved_discriminator fs name' <-> name = name') ∧
  saved_discriminator fs name = saved_model fs (name +:+ "_discriminator").
Proof.
  unfold saved_model, saved_discriminator.
  split; [|split; [|split]].
  - intros H. do 2 apply (inj _) in H.
    apply (f_equal String.length) in H. rewrite !string_length_app in H.
    cbn [String.length] in H. lia.
  - split; [|by intros ->]. intros H. do 2 apply (inj _) in H.
    by apply string_app_inv_tail in H.
  - split; [|by intros ->]. intros H. do 2 apply (inj _) in H.
    by apply string_app_inv_tail in H.
  - by rewrite string_app_assoc.
Qed.

(** * The loss of the vanilla loop *)

Section vanilla_loss.

Local Open Scope R_scope.






End vanilla_loss.
